(** * ohcli: a shallow embedding of [ohcli.h] and its parsing pipeline

    The development follows the layout of the header: the restrictors, the
    [utils] namespace (diagnostics and string conversions), then the [CLI]
    class with its nested [Token], [Packed] and [Callback] classes, the
    registration methods, [run], [parse], [parse_multi] and [is_multi].

    Conventions of the embedding.
    - [int] values ([expected_args], [priority]) are integers of [Z]; the only
      arithmetic the header performs on them is the comparison of
      [arg.size()] with [expected_args], whose conversion to [std::size_t] is
      written out in [to_size_t].
    - [std::map] is a [gmap]: the header only uses [find], [insert] and
      [operator[]], never the iteration order.
    - [std::vector] is a [list]; a vector iterator is a position in it. The
      iterator that [parse_multi] goes on with after [tokens.erase(it)] is
      invalidated by the standard; it is given the meaning that it has where
      a vector iterator is a pointer into contiguous storage: the same
      position. Only the expansion of a cluster reaches that point.
    - [std::sort] is known by its contract only ([StdSort]): the order it
      gives to tasks of equal priority is not fixed.
    - An exception is an [outcome]: [utils::error] throws a
      [std::runtime_error] ([Error]), [utils::fatal] a [std::logic_error]
      ([Fatal]).
    - [std::cout] is the list of lines written so far; the variables that the
      registered actions capture by reference live in a [World], and a
      captured reference [T &value] is the function that assigns to it.
    - [main] is entered with [argc >= 1]: [parse] takes [argv[0]] and the
      arguments after it. *)

From Stdlib Require Import Ascii String ZArith Lia.
From stdpp Require Import gmap strings list sorting pretty.

Open Scope string_scope.
Open Scope list_scope.
Open Scope Z_scope.

(** ** Outcomes of a call *)

Inductive outcome (A : Type) : Type :=
| Done (a : A)             (* normal return *)
| Error (what : string)    (* std::runtime_error, thrown by utils::error *)
| Fatal (what : string)    (* std::logic_error, thrown by utils::fatal *)
| Undefined.               (* behaviour the C++ standard leaves undefined *)

Arguments Done {A} a.
Arguments Error {A} what.
Arguments Fatal {A} what.
Arguments Undefined {A}.

(** ** Strings of the C++ side *)

Definition ESC : string := String (ascii_of_nat 27) "".

(** [argv[i][k]]: the character at index [k] of a C string, the terminating
    NUL when [k] is its length. *)
Definition char_at (s : string) (k : nat) : ascii :=
  match String.get k s with
  | Some c => c
  | None => ascii_of_nat 0
  end.

(** [strlen]; arguments of [main] hold no NUL character. *)
Definition strlen (s : string) : nat := String.length s.

(** [std::string(s, pos)]: the suffix of [s] that starts at [pos]. *)
Definition substr_from (s : string) (pos : nat) : string :=
  String.substring pos (String.length s - pos) s.

(** [std::string(1, c)]. *)
Definition string1 (c : ascii) : string := String c "".

(** [std::to_string] on an integer. *)
Definition to_string (z : Z) : string := pretty z.

(** The characters of a string, in order. *)
Definition chars (s : string) : list ascii := list_ascii_of_string s.

(** ** Restrictors

    A restrictor takes the converted value by reference and only reads it. *)

Definition Restrictor (T : Type) : Type := T -> bool.

Definition range (a b : Z) : Restrictor Z := fun v => (a <=? v) && (v <? b).

(** [oneof(const T &s)], the overload over a container: the closure holds a
    copy of the container, which [std::find] searches. The overload over a
    [std::initializer_list] copies the list object only, not the array
    behind it, which is gone when the restrictor is called from [run]: a
    call of that closure is undefined, and it is not embedded here. *)
Definition oneof (s : list Z) : Restrictor Z := fun v => existsb (Z.eqb v) s.

Definition default_restrictor {T : Type} : Restrictor T := fun _ => true.

(** ** namespace utils *)

Module utils.

(** [fatal] and [error] only throw; [warn] writes one line to [std::cout]. *)
Definition fatal {A : Type} (str : string) : outcome A :=
  Fatal (ESC +:+ "[31mFATAL: " +:+ ESC +:+ "[0m" +:+ str).

Definition error {A : Type} (str : string) : outcome A :=
  Error (ESC +:+ "[31mERROR: " +:+ ESC +:+ "[0m" +:+ str).

Definition warn (str : string) : string :=
  ESC +:+ "[33mWARNING: " +:+ ESC +:+ "[0m" +:+ str.

(** *** std::stoi

    [std::stoi(s)] calls [strtol] in base 10: it skips leading white space,
    reads an optional sign and the longest run of decimal digits, throws
    [std::invalid_argument] when there is no digit to read and
    [std::out_of_range] when the value does not fit an [int]. [None] stands
    for either exception: [str_to<int>] catches both alike. *)

Definition isspace (c : ascii) : bool :=
  let n := nat_of_ascii c in
  (Nat.eqb n 32 || (Nat.leb 9 n && Nat.leb n 13))%bool.

Definition digit (c : ascii) : option Z :=
  let n := nat_of_ascii c in
  if (Nat.leb 48 n && Nat.leb n 57)%bool then Some (Z.of_nat (n - 48)) else None.

Fixpoint skip_space (s : string) : string :=
  match s with
  | String c r => if isspace c then skip_space r else s
  | EmptyString => s
  end.

Fixpoint read_digits (s : string) (acc : Z) : Z :=
  match s with
  | String c r =>
      match digit c with
      | Some d => read_digits r (10 * acc + d)
      | None => acc
      end
  | EmptyString => acc
  end.

Definition INT_MIN : Z := - 2 ^ 31.
Definition INT_MAX : Z := 2 ^ 31 - 1.

Definition stoi (s : string) : option Z :=
  let s1 := skip_space s in
  let '(neg, s2) :=
    match s1 with
    | String "-" r => (true, r)
    | String "+" r => (false, r)
    | _ => (false, s1)
    end in
  match s2 with
  | String c _ =>
      match digit c with
      | Some _ =>
          let v := read_digits s2 0 in
          let v := if neg : bool then - v else v in
          if (INT_MIN <=? v) && (v <=? INT_MAX) then Some v else None
      | None => None
      end
  | EmptyString => None
  end.

(** *** str_to<T> *)

Definition str_to_string (s : string) : outcome string := Done s.

Definition str_to_int (s : string) : outcome Z :=
  match stoi s with
  | Some v => Done v
  | None => error ("Unexpected conversion of '" +:+ s +:+ "' to int.")
  end.

Definition str_to_bool (s : string) : outcome bool :=
  if (String.eqb s "true" || String.eqb s "True" || String.eqb s "TRUE")%bool then
    Done true
  else if (String.eqb s "false" || String.eqb s "False" || String.eqb s "FALSE")%bool then
    Done false
  else
    error ("Unexpected conversion of '" +:+ s +:+ "' to boolean.").

End utils.

(** The conversion [utils::str_to<T>] as an interface over the target type. *)
Class StrTo (T : Type) : Type := str_to : string -> outcome T.

#[export] Instance str_to_string_inst : StrTo string := utils.str_to_string.
#[export] Instance str_to_int_inst : StrTo Z := utils.str_to_int.
#[export] Instance str_to_bool_inst : StrTo bool := utils.str_to_bool.

(** ** class CLI *)

Definition CmdArg : Type := list string.

(** [std::map::find(k) != end()]. *)
Definition found {V : Type} (m : gmap string V) (k : string) : bool :=
  match m !! k with
  | Some _ => true
  | None => false
  end.

(** [std::map::insert]: an existing key keeps its value. *)
Definition map_insert {V : Type} (k : string) (v : V) (m : gmap string V) : gmap string V :=
  match m !! k with
  | Some _ => m
  | None => <[k:=v]> m
  end.

(** [std::vector::insert(pos, x)] and [std::vector::erase(pos)] at a position. *)
Definition vec_insert {A : Type} (pos : nat) (x : A) (v : list A) : list A :=
  take pos v ++ x :: drop pos v.

Definition vec_erase {A : Type} (pos : nat) (v : list A) : list A :=
  take pos v ++ drop (S pos) v.

(** The conversion of an [int] to [std::size_t] (64 bits) that the comparison
    of [arg.size()] with [expected_args] performs. *)
Definition to_size_t (z : Z) : Z := z mod 2 ^ 64.

(** *** class Token *)

Record Token : Type := mkToken { cmd : string; args : list string }.

Definition Token_add (v : string) (t : Token) : Token :=
  {| cmd := cmd t; args := args t ++ [v] |}.

(** [tokens.back().add(v)]; [back()] of an empty vector is not reached by
    [parse], which first pushes the token of [argv[0]]. *)
Definition back_add (v : string) (tokens : list Token) : list Token :=
  alter (Token_add v) (Nat.pred (length tokens)) tokens.

(** One turn of the tokenizing loop of [parse], on the argument [a]. *)
Definition tokenize_arg (tokens : list Token) (a : string) : list Token :=
  if Ascii.eqb (char_at a 0) "-" && negb (Nat.eqb (strlen a) 1) then
    if Ascii.eqb (char_at a 1) "-" && negb (Nat.eqb (strlen a) 2) then
      tokens ++ [mkToken (substr_from a 2) []]
    else
      tokens ++ [mkToken (substr_from a 1) []]
  else
    back_add a tokens.

(** The tokenizing part of [parse]: [argv[0]] opens a token, then the loop. *)
Definition tokenize (tokens : list Token) (argv0 : string) (rest : list string) : list Token :=
  foldl tokenize_arg (tokens ++ [mkToken argv0 []]) rest.

Section CLI.
Context {World : Type}.

(** [Cmd = std::function<void(CmdArg &)>]: an action reads and may write the
    argument vector it is handed, and acts on the world. *)
Definition Cmd : Type := CmdArg -> World -> CmdArg * World * outcome unit.

(** *** class Packed

    [std::bind(func, arg)] is a function object that stores a copy of [func]
    and a copy of [arg], and hands the stored copy to [func] at each call. *)
Record Packed : Type := mkPacked {
  bound_func : Cmd;
  bound_arg : CmdArg;
  priority : Z
}.

(** [Packed::operator()]. *)
Definition call (p : Packed) (w : World) : Packed * World * outcome unit :=
  let '(a, w', o) := bound_func p (bound_arg p) w in
  (mkPacked (bound_func p) a (priority p), w', o).

(** *** class Callback *)
Record Callback : Type := mkCallback {
  name : string;
  func : Cmd;
  expected_args : Z;
  cb_priority : Z
}.

(** [Callback()]. *)
Definition Callback_default : Callback :=
  mkCallback "" (fun a w => (a, w, Done tt)) (-1) (-1).

(** *** The members of CLI *)
Record CLI : Type := mkCLI {
  tokens : list Token;
  alias : gmap string string;
  funcs : gmap string Callback;
  tasks : list Packed;
  parsed : bool
}.

(** [CLI()]. *)
Definition CLI_new : CLI := mkCLI [] ∅ ∅ [] false.

Definition set_tokens (v : list Token) (c : CLI) : CLI :=
  mkCLI v (alias c) (funcs c) (tasks c) (parsed c).
Definition set_alias (v : gmap string string) (c : CLI) : CLI :=
  mkCLI (tokens c) v (funcs c) (tasks c) (parsed c).
Definition set_funcs (v : gmap string Callback) (c : CLI) : CLI :=
  mkCLI (tokens c) (alias c) v (tasks c) (parsed c).
Definition set_tasks (v : list Packed) (c : CLI) : CLI :=
  mkCLI (tokens c) (alias c) (funcs c) v (parsed c).
Definition set_parsed (v : bool) (c : CLI) : CLI :=
  mkCLI (tokens c) (alias c) (funcs c) (tasks c) v.

(** *** The state a method runs in, and the monad of methods *)
Record State : Type := mkState {
  self : CLI;
  cout : list string;
  world : World
}.

Definition M (A : Type) : Type := State -> State * outcome A.

#[export] Instance M_ret : MRet M := fun A a s => (s, Done a).

#[export] Instance M_bind : MBind M := fun A B k m s =>
  match m s with
  | (s', Done a) => k a s'
  | (s', Error e) => (s', Error e)
  | (s', Fatal e) => (s', Fatal e)
  | (s', Undefined) => (s', Undefined)
  end.

Definition get_self : M CLI := fun s => (s, Done (self s)).

Definition modify_self (f : CLI -> CLI) : M unit :=
  fun s => (mkState (f (self s)) (cout s) (world s), Done tt).

(** An exception leaves the state as it is at the throw. *)
Definition throw {A : Type} (o : outcome A) : M A := fun s => (s, o).

Definition fatal (str : string) : M unit := throw (utils.fatal str).
Definition error (str : string) : M unit := throw (utils.error str).
Definition warn (str : string) : M unit :=
  fun s => (mkState (self s) (cout s ++ [utils.warn str]) (world s), Done tt).

Definition when (b : bool) (m : M unit) : M unit := if b then m else mret tt.

(** A range-based [for] over a sequence that the body does not change. *)
Fixpoint for_each {A : Type} (body : A -> M unit) (l : list A) : M unit :=
  match l with
  | [] => mret tt
  | x :: l' => body x;; for_each body l'
  end.

(** [Callback::pack]. *)
Definition pack (cb : Callback) (arg : CmdArg) : M Packed :=
  let size := Z.of_nat (length arg) in
  when (negb (expected_args cb =? -1))
    (when (size <? to_size_t (expected_args cb))
       (error (name cb +:+ ": " +:+ "Too few arguments (" +:+ to_string size +:+ "), expects "
               +:+ to_string (expected_args cb)));;
     when (to_size_t (expected_args cb) <? size)
       (warn (name cb +:+ ": " +:+ "Expected " +:+ to_string (expected_args cb) +:+ " arguments, but "
              +:+ to_string size +:+ " was given.")));;
  mret (mkPacked (func cb) arg (cb_priority cb)).

(** *** Registration *)

Definition add_cmd (cmd : string) (func : Cmd) (expected_args priority : Z) : M unit :=
  c ← get_self;
  when (parsed c) (fatal "Can not add_cmd() after parse().");;
  when (found (funcs c) cmd) (fatal ("Duplicate names are prohibited.('" +:+ cmd +:+ "')."));;
  modify_self (fun c => set_funcs (map_insert cmd (mkCallback cmd func expected_args priority) (funcs c)) c).

Definition add_cmd_alias (cmd alia : string) (func : Cmd) (expected_args priority : Z) : M unit :=
  c ← get_self;
  when (parsed c) (fatal "Can not add_cmd() after parse().");;
  when (found (funcs c) cmd) (fatal ("Duplicate names are prohibited.('" +:+ cmd +:+ "')."));;
  when (found (alias c) alia) (fatal ("Duplicate names are prohibited.('" +:+ alia +:+ "')."));;
  modify_self (fun c => set_funcs (map_insert cmd (mkCallback cmd func expected_args priority) (funcs c)) c);;
  modify_self (fun c => set_alias (map_insert alia cmd (alias c)) c).

(** The action that [add_value<T>] registers; [value] is the captured
    reference [T &value], which the action only assigns to. Indexing an
    empty [args] with [args[0]] is undefined. *)
Definition value_action {T : Type} `{StrTo T}
    (value : T -> World -> World) (restrictor : Restrictor T) : Cmd :=
  fun args w =>
    match args with
    | [] => (args, w, Undefined)
    | a0 :: _ =>
        match str_to a0 with
        | Done temp =>
            if negb (restrictor temp) then
              (args, w, utils.error ("Invaild value '" +:+ a0 +:+ "'"))
            else (args, value temp w, Done tt)
        | Error e => (args, w, Error e)
        | Fatal e => (args, w, Fatal e)
        | Undefined => (args, w, Undefined)
        end
    end.

Definition add_value {T : Type} `{StrTo T}
    (name : string) (value : T -> World -> World) (restrictor : Restrictor T) : M unit :=
  c ← get_self;
  when (parsed c) (fatal "Can not add_value() after parse().");;
  add_cmd name (value_action value restrictor) 1 (-1).


(** The action that [add_option] registers: [option = true]. *)
Definition option_action (option : bool -> World -> World) : Cmd :=
  fun args w => (args, option true w, Done tt).

Definition add_option (name : string) (option : bool -> World -> World) : M unit :=
  c ← get_self;
  when (parsed c) (fatal "Can not add_value() after parse().");;
  add_cmd name (option_action option) 0 (-1).


(** *** run *)

(** [for (auto &r: tasks) r();] an exception leaves the loop at once. *)
Fixpoint run_tasks (ts : list Packed) (w : World) : list Packed * World * outcome unit :=
  match ts with
  | [] => ([], w, Done tt)
  | r :: ts' =>
      match call r w with
      | (r', w', Done _) =>
          let '(ts'', w'', o) := run_tasks ts' w' in (r' :: ts'', w'', o)
      | (r', w', o) => (r' :: ts', w', o)
      end
  end.

Definition run_loop : M unit :=
  fun s =>
    let '(ts, w, o) := run_tasks (tasks (self s)) (world s) in
    (mkState (set_tasks ts (self s)) (cout s) w, o).

Definition run : M unit :=
  c ← get_self;
  when (negb (parsed c)) (fatal "Option has not parsed.");;
  run_loop.

(** *** is_multi and parse_multi *)

Definition is_multi (c : CLI) (str : string) : bool :=
  if found (funcs c) str || found (alias c) str then false
  else
    forallb (fun r => negb (negb (found (funcs c) (string1 r)) &&
                            negb (found (alias c) (string1 r))))
            (chars str).

(** The inner loop of [parse_multi]: each turn inserts the token of one
    character before [it] and moves [it] back onto the clustered token. *)
Fixpoint insert_chars (cs : list ascii) (it : nat) (tokens : list Token) : nat * list Token :=
  match cs with
  | [] => (it, tokens)
  | ch :: cs' => insert_chars cs' (S it) (vec_insert it (mkToken (string1 ch) []) tokens)
  end.

(** The outer loop of [parse_multi], from the position [it]. The result of
    [tokens.erase(it)] is dropped: [it] stays at the same position, which now
    holds the element that followed the erased one, and the [it++] of the
    loop moves past it. This is the behaviour of a build in which the
    iterator is a pointer; the standard invalidates [it] at the [erase], and
    a build with checked iterators stops there. A stream without a cluster
    never takes that branch. [fuel] bounds the number of turns. *)
Fixpoint parse_multi_loop (fuel : nat) (it : nat) : M unit :=
  match fuel with
  | O => mret tt
  | S fuel' =>
      c ← get_self;
      match tokens c !! it with
      | None => mret tt
      | Some t =>
          if is_multi c (cmd t) then
            let '(it', toks) := insert_chars (chars (cmd t)) it (tokens c) in
            modify_self (set_tokens toks);;
            for_each (fun r => warn ("Discarded arguments '" +:+ r +:+ "'")) (args t);;
            modify_self (fun c => set_tokens (vec_erase it' (tokens c)) c);;
            parse_multi_loop fuel' (S it')
          else parse_multi_loop fuel' (S it)
      end
  end.

Definition parse_multi : M unit :=
  c ← get_self;
  parse_multi_loop (length (tokens c)) 0.

(** *** parse *)

(** [funcs[k]] and [alias[k]]: [operator[]] inserts a default-constructed
    value under a missing key. *)
Definition funcs_at (k : string) : M Callback :=
  c ← get_self;
  match funcs c !! k with
  | Some cb => mret cb
  | None => modify_self (set_funcs (<[k:=Callback_default]> (funcs c)));; mret Callback_default
  end.

Definition alias_at (k : string) : M string :=
  c ← get_self;
  match alias c !! k with
  | Some a => mret a
  | None => modify_self (set_alias (<[k:=""]> (alias c)));; mret ""
  end.

Definition push_task (p : Packed) : M unit :=
  modify_self (fun c => set_tasks (tasks c ++ [p]) c).

(** The body of the resolving loop of [parse], on the token [r]. *)
Definition dispatch (r : Token) : M unit :=
  c ← get_self;
  if found (funcs c) (cmd r) then
    cb ← funcs_at (cmd r);
    p ← pack cb (args r);
    push_task p
  else if found (alias c) (cmd r) then
    a ← alias_at (cmd r);
    cb ← funcs_at a;
    p ← pack cb (args r);
    push_task p
  else
    warn ("Unrecognized option '" +:+ cmd r +:+ "'.");;
    for_each (fun a => warn ("Discarded arguments '" +:+ a +:+ "'")) (args r).

(** The order that [std::sort] is called with: [p1] may stand before [p2]
    when the comparator [p2.priority > p1.priority] is false. *)
Definition prio_ge (p1 p2 : Packed) : Prop := priority p2 <= priority p1.

(** [std::sort] with that comparator. The standard fixes its result up to
    the order of equal elements: a permutation of the input that is sorted. *)
Class StdSort : Type := {
  std_sort : list Packed -> list Packed;
  std_sort_perm : forall l, std_sort l ≡ₚ l;
  std_sort_sorted : forall l, StronglySorted prio_ge (std_sort l)
}.

Context `{StdSort}.

Definition parse (argv0 : string) (rest : list string) : M unit :=
  modify_self (fun c => set_tokens (tokenize (tokens c) argv0 rest) c);;
  modify_self (fun c => set_funcs (map_insert argv0 Callback_default (funcs c)) c);;
  parse_multi;;
  c ← get_self;
  for_each dispatch (tokens c);;
  modify_self (fun c => set_tasks (std_sort (tasks c)) c);;
  modify_self (set_parsed true).

End CLI.

Arguments Packed : clear implicits.
Arguments Callback : clear implicits.
Arguments CLI : clear implicits.
Arguments State : clear implicits.
Arguments StdSort : clear implicits.

(** ** The rule of the tokenizer, in the words of the specification *)

(** What one argument does to the token stream: it opens a token of some name,
    or it is a plain argument of the token that is open. *)
Inductive arg_kind : Type :=
| Opens (name : string)
| Plain.

Definition apply_kind (a : string) (k : arg_kind) (tokens : list Token) : list Token :=
  match k with
  | Opens n => tokens ++ [mkToken n []]
  | Plain => back_add a tokens
  end.

(** The rule as it is claimed: two leading dashes and a length above 2 open a
    token named by what follows the two dashes; exactly one leading dash and a
    length above 1 open a token named by what follows the dash; anything else,
    a bare "-" and a bare "--" included, is a plain argument. *)
Definition claimed_kind (a : string) : arg_kind :=
  match a with
  | String "-" (String "-" (String c r)) => Opens (String c r)
  | String "-" (String "-" EmptyString) => Plain
  | String "-" (String c r) => Opens (String c r)
  | _ => Plain
  end.

(** The rule with the bare "--" moved to the one-dash case: it opens a token
    named "-". *)
Definition amended_kind (a : string) : arg_kind :=
  match a with
  | String "-" (String "-" (String c r)) => Opens (String c r)
  | String "-" (String c r) => Opens (String c r)
  | _ => Plain
  end.

Definition claimed_tokenize (tokens : list Token) (argv0 : string) (rest : list string) : list Token :=
  foldl (fun ts a => apply_kind a (claimed_kind a) ts) (tokens ++ [mkToken argv0 []]) rest.

Definition amended_tokenize (tokens : list Token) (argv0 : string) (rest : list string) : list Token :=
  foldl (fun ts a => apply_kind a (amended_kind a) ts) (tokens ++ [mkToken argv0 []]) rest.

(** ** Definitions that the properties are stated with *)

Definition is_fatal {A : Type} (o : outcome A) : Prop :=
  match o with
  | Fatal _ => True
  | _ => False
  end.

(** A numeric argument, in the words of the specification: a decimal
    integer literal, that is an optional sign and then decimal digits, at
    least one, and nothing else. *)
Definition all_digits (s : string) : bool :=
  negb (String.eqb s "") && forallb (fun c => bool_decide (is_Some (utils.digit c))) (chars s).

Definition numeric (s : string) : bool :=
  match s with
  | String "-" r => all_digits r
  | String "+" r => all_digits r
  | _ => all_digits s
  end.

Definition bool_true_literals : list string := ["true"; "True"; "TRUE"].
Definition bool_false_literals : list string := ["false"; "False"; "FALSE"].

(** The token stream that [parse_multi] leaves, from the position of the
    loop on: an expanded token is replaced by the tokens of its characters,
    and the token that follows it is stepped over as it is. The second
    component is the lines printed. *)
Fixpoint expand (multi : string -> bool) (suffix : list Token) : list Token * list string :=
  match suffix with
  | [] => ([], [])
  | t :: after =>
      if multi (cmd t) then
        let inserted := map (fun ch => mkToken (string1 ch) []) (chars (cmd t)) in
        let lines := map (fun r => utils.warn ("Discarded arguments '" +:+ r +:+ "'")) (args t) in
        match after with
        | [] => (inserted, lines)
        | skipped :: after' =>
            let '(ts, ls) := expand multi after' in
            (inserted ++ skipped :: ts, lines ++ ls)
        end
      else
        let '(ts, ls) := expand multi after in (t :: ts, ls)
  end.

(** The expansion in the words of the specification: every token whose name
    is a cluster is replaced by the tokens of its characters, each without
    arguments. *)
Definition cluster_tokens (t : Token) : list Token :=
  map (fun ch => mkToken (string1 ch) []) (chars (cmd t)).

Definition claimed_expand (multi : string -> bool) (toks : list Token) : list Token :=
  flat_map (fun t => if multi (cmd t) then cluster_tokens t else [t]) toks.

(** No cluster comes right after a cluster. *)
Fixpoint no_cluster_after_cluster (multi : string -> bool) (toks : list Token) : Prop :=
  match toks with
  | [] => True
  | t :: rest =>
      match rest with
      | [] => True
      | t' :: _ => multi (cmd t) = true -> multi (cmd t') = false
      end /\ no_cluster_after_cluster multi rest
  end.

Section Stated.
Context {World : Type}.
Implicit Types (s : State World) (p q : Packed World) (l : list (Packed World)).

(** What a turn of the resolving loop keeps: the tokens, the aliases, the
    flag and the world; the tasks only grow at the end. *)
Definition extends s s' : Prop :=
  tokens (self s') = tokens (self s) /\
  alias (self s') = alias (self s) /\
  parsed (self s') = parsed (self s) /\
  world s' = world s /\
  exists new, tasks (self s') = tasks (self s) ++ new.

(** The state in which the resolving loop of [parse] starts: the arguments
    are tokenized, [argv[0]] is in [funcs], the clusters are expanded. *)
Definition expanded (argv0 : string) (rest : list string) s : State World :=
  let c1 := set_funcs (map_insert argv0 Callback_default (funcs (self s)))
              (set_tokens (tokenize (tokens (self s)) argv0 rest) (self s)) in
  mkState (set_tokens (expand (is_multi c1) (tokens c1)).1 c1)
          (cout s ++ (expand (is_multi c1) (tokens c1)).2) (world s).

(** Every alias stands for a primary name. *)
Definition alias_closed (c : CLI World) : Prop :=
  forall k a, alias c !! k = Some a -> is_Some (funcs c !! a).

(** The command that a name stands for: the one registered under the name,
    or else the one registered under the primary name that the name is an
    alias of. *)
Definition resolve (c : CLI World) (k : string) : option (Callback World) :=
  match funcs c !! k with
  | Some cb => Some cb
  | None => a ← alias c !! k; funcs c !! a
  end.

(** The deferred action of a token: the function and the priority of its
    command, with the arguments of the token. *)
Definition task_of (c : CLI World) (r : Token) : option (Packed World) :=
  cb ← resolve c (cmd r); Some (mkPacked (func cb) (args r) (cb_priority cb)).

(** To invoke the deferred action at the position [i] of the tasks: its
    function is called on the arguments bound to it, in the world; the call
    may write the bound arguments and the world. *)
Definition invoke (i : nat) l (w : World) : list (Packed World) * World * outcome unit :=
  match l !! i with
  | Some p => let '(p', w', o) := call p w in (<[i:=p']> l, w', o)
  | None => (l, w, Done tt)
  end.

(** The invocations at the positions [schedule], one after the other; an
    action that throws ends them. The result is what they leave (the tasks,
    the world and the outcome) and the positions that have been invoked. *)
Fixpoint invoke_seq (schedule : list nat) l (w : World)
    : list (Packed World) * World * outcome unit * list nat :=
  match schedule with
  | [] => (l, w, Done tt, [])
  | i :: schedule' =>
      match invoke i l w with
      | (l', w', Done _) =>
          let '(r, invoked) := invoke_seq schedule' l' w' in (r, i :: invoked)
      | r => (r, [i])
      end
  end.

(** A method that does the invocations [r] from the state [s], and nothing
    else: the state it leaves, and its outcome. *)
Definition after_invocations s (r : list (Packed World) * World * outcome unit)
    : State World * outcome unit :=
  (mkState (set_tasks r.1.1 (self s)) (cout s) r.1.2, r.2).

(** Insertion before the first task that has no higher priority: the sort
    keeps tasks of equal priority in the order of the input. *)
Fixpoint insert_task p l : list (Packed World) :=
  match l with
  | [] => [p]
  | q :: l' =>
      if decide (priority q <= priority p) then p :: q :: l' else q :: insert_task p l'
  end.

Fixpoint insertion_sort l : list (Packed World) :=
  match l with
  | [] => []
  | p :: l' => insert_task p (insertion_sort l')
  end.

End Stated.

(** ** Worlds for examples *)

(** The log of the actions that ran. *)
Definition Log : Type := list string.

(** An action that appends its label and the arguments it received. *)
Definition say (label : string) : @Cmd Log :=
  fun a w => (a, w ++ [label +:+ "(" +:+ String.concat "," a +:+ ")"], Done tt).

Definition fresh : State Log := mkState CLI_new [] [].

(** The state after the chained registrations [m], from a new CLI. *)
Definition registered (m : @M Log unit) : State Log := (m fresh).1.

Definition two_flags : @M Log unit :=
  add_cmd "a" (say "a") (-1) (-1);; add_cmd "b" (say "b") (-1) (-1).

Definition three_flags : @M Log unit :=
  two_flags;; add_cmd "c" (say "c") (-1) (-1).

Definition low_high : @M Log unit :=
  add_cmd "lowcmd" (say "low") (-1) 5;; add_cmd "highcmd" (say "high") (-1) 10.

Definition flag_and_value : @M Log unit :=
  add_cmd "o" (say "o") 0 (-1);; add_cmd "n" (say "n") 1 (-1).

(** A value binding of priority 10, which logs what it is assigned, and a
    flag of priority 5. *)
Definition value_and_flag : @M Log unit :=
  add_cmd "n" (value_action (fun (v : Z) w => w ++ ["n=" +:+ to_string v]) default_restrictor) 1 10;;
  add_cmd "o" (say "o") 0 5.

(** A world with one [int] variable, bound to the option "n". *)
Definition set_n (v : Z) (_ : Z) : Z := v.

(** * Properties *)

(** ** The monad of methods *)

Section MonadLemmas.
Context {World : Type}.
Implicit Types s : State World.

Lemma bind_run {A B} (m : @M World A) (k : A -> M B) s :
  (m ≫= k) s =
  match m s with
  | (s', Done a) => k a s'
  | (s', Error e) => (s', Error e)
  | (s', Fatal e) => (s', Fatal e)
  | (s', Undefined) => (s', Undefined)
  end.
Proof. reflexivity. Qed.

End MonadLemmas.

(** Unfolds the monad and its primitive operations. *)
Ltac munfold :=
  unfold mbind, M_bind, mret, M_ret, get_self, modify_self, when, fatal, error, warn, throw.

(** ** A sorting function that meets the contract of std::sort *)

Section InsertionSort.
Context {World : Type}.
Implicit Types (p q : Packed World) (l : list (Packed World)).

Lemma insert_task_perm p l : insert_task p l ≡ₚ p :: l.
Proof.
  induction l as [|q l IH]; simpl; [done|].
  case_decide; [done|]. rewrite IH. apply Permutation_swap.
Qed.

Lemma insertion_sort_perm l : insertion_sort l ≡ₚ l.
Proof.
  induction l as [|p l IH]; simpl; [done|].
  by rewrite insert_task_perm, IH.
Qed.

Lemma insert_task_sorted p l :
  StronglySorted prio_ge l -> StronglySorted prio_ge (insert_task p l).
Proof.
  induction 1 as [|q l Hl IH Hq]; simpl.
  - repeat constructor.
  - case_decide as Hle.
    + constructor; [by constructor|].
      constructor; [done|].
      eapply Forall_impl; [exact Hq|]. unfold prio_ge. intros x Hx. lia.
    + constructor; [done|].
      rewrite insert_task_perm. constructor; [|done]. unfold prio_ge. lia.
Qed.

Lemma insertion_sort_sorted l : StronglySorted prio_ge (insertion_sort l).
Proof.
  induction l as [|p l IH]; simpl; [constructor|].
  by apply insert_task_sorted.
Qed.

Definition insertion_StdSort : StdSort World :=
  {| std_sort := insertion_sort;
     std_sort_perm := insertion_sort_perm;
     std_sort_sorted := insertion_sort_sorted |}.

Lemma std_sort_singleton (S : StdSort World) p : std_sort [p] = [p].
Proof. apply Permutation_singleton_r, std_sort_perm. Qed.

Lemma std_sort_length (S : StdSort World) l : length (std_sort l) = length l.
Proof. apply Permutation_length, std_sort_perm. Qed.

End InsertionSort.

(** ** Restrictors *)

Lemma range_spec (a b v : Z) : range a b v = true <-> a <= v < b.
Proof. unfold range. rewrite andb_true_iff, Z.leb_le, Z.ltb_lt. done. Qed.

Lemma oneof_spec (l : list Z) (v : Z) : oneof l v = true <-> v ∈ l.
Proof.
  unfold oneof. rewrite existsb_exists. split.
  - intros (x & Hx & Hv). apply Z.eqb_eq in Hv as ->. by apply list_elem_of_In.
  - intros Hv. exists v. split; [by apply list_elem_of_In | apply Z.eqb_refl].
Qed.

(** ** Boolean conversion *)

Ltac lit_case :=
  split_and!;
  [ split; [ first [ discriminate | intros _; auto 6 ]
           | intros H; decompose [or] H; first [ contradiction | congruence ] ]
  | split; [ first [ discriminate | intros _; auto 6 ]
           | intros H; decompose [or] H; first [ contradiction | congruence ] ]
  | intros H; first [ reflexivity | exfalso; apply H; auto 8 ] ].

(** C8: [str_to<bool>] returns [true] exactly on "true", "True", "TRUE",
    returns [false] exactly on "false", "False", "FALSE", and on every other
    string throws the error whose message holds the raw string and the name
    of the target type, "boolean". *)
Lemma C8_str_to_bool (s : string) :
  (utils.str_to_bool s = Done true <-> s ∈ bool_true_literals) /\
  (utils.str_to_bool s = Done false <-> s ∈ bool_false_literals) /\
  (s ∉ bool_true_literals ++ bool_false_literals ->
   utils.str_to_bool s =
   Error (ESC +:+ "[31mERROR: " +:+ ESC +:+ "[0m" +:+
          "Unexpected conversion of '" +:+ s +:+ "' to boolean.")).
Proof.
  unfold utils.str_to_bool, bool_true_literals, bool_false_literals, utils.error.
  rewrite !elem_of_app, !elem_of_cons, !elem_of_nil.
  destruct (String.eqb_spec s "true") as [->|N1]; simpl; [lit_case|].
  destruct (String.eqb_spec s "True") as [->|N2]; simpl; [lit_case|].
  destruct (String.eqb_spec s "TRUE") as [->|N3]; simpl; [lit_case|].
  destruct (String.eqb_spec s "false") as [->|N4]; simpl; [lit_case|].
  destruct (String.eqb_spec s "False") as [->|N5]; simpl; [lit_case|].
  destruct (String.eqb_spec s "FALSE") as [->|N6]; simpl; lit_case.
Qed.

(** C8 on "yes", which is none of the six literals. *)
Lemma C8_str_to_bool_witness :
  utils.str_to_bool "TRUE" = Done true /\
  utils.str_to_bool "False" = Done false /\
  utils.str_to_bool "yes" =
    Error (ESC +:+ "[31mERROR: " +:+ ESC +:+ "[0m" +:+ "Unexpected conversion of 'yes' to boolean.").
Proof.
  split_and!.
  - apply (proj1 (C8_str_to_bool "TRUE")). unfold bool_true_literals. set_solver.
  - apply (proj1 (proj2 (C8_str_to_bool "False"))). unfold bool_false_literals. set_solver.
  - apply (proj2 (proj2 (C8_str_to_bool "yes"))).
    unfold bool_true_literals, bool_false_literals. simpl.
    intros Hin. repeat (apply elem_of_cons in Hin as [Hin|Hin]; [discriminate|]).
    by apply elem_of_nil in Hin.
Defined.

(** ** The tokenizer *)

Lemma substring_all (s : string) : String.substring 0 (String.length s) s = s.
Proof. induction s as [|c s IH]; simpl; [done | by rewrite IH]. Qed.

Lemma substr_from_1 (c : ascii) (r : string) : substr_from (String c r) 1 = r.
Proof. unfold substr_from. simpl. rewrite Nat.sub_0_r. apply substring_all. Qed.

Lemma substr_from_2 (c1 c2 : ascii) (r : string) :
  substr_from (String c1 (String c2 r)) 2 = r.
Proof. unfold substr_from. simpl. rewrite Nat.sub_0_r. apply substring_all. Qed.

Lemma amended_kind_not_dash (c : ascii) (r : string) :
  c <> "-"%char -> amended_kind (String c r) = Plain.
Proof.
  intros N. destruct c as [[] [] [] [] [] [] [] []]; try reflexivity.
  by destruct N.
Qed.

Lemma amended_kind_dash_not_dash (c : ascii) (r : string) :
  c <> "-"%char -> amended_kind (String "-" (String c r)) = Opens (String c r).
Proof.
  intros N. destruct c as [[] [] [] [] [] [] [] []]; try reflexivity.
  by destruct N.
Qed.

Lemma tokenize_arg_amended (tokens : list Token) (a : string) :
  tokenize_arg tokens a = apply_kind a (amended_kind a) tokens.
Proof.
  unfold tokenize_arg, strlen.
  destruct a as [|c1 a1]; [reflexivity|].
  change (char_at (String c1 a1) 0) with c1.
  destruct (Ascii.eqb_spec c1 "-") as [->|N1]; simpl andb;
    [|by rewrite amended_kind_not_dash].
  destruct a1 as [|c2 a2]; [reflexivity|].
  change (char_at (String "-" (String c2 a2)) 1) with c2.
  change (negb (String.length (String "-" (String c2 a2)) =? 1)%nat) with true.
  cbv iota.
  destruct (Ascii.eqb_spec c2 "-") as [->|N2]; simpl andb.
  - destruct a2 as [|c3 a3]; simpl.
    + reflexivity.
    + by rewrite substr_from_2.
  - rewrite amended_kind_dash_not_dash by done. simpl.
    by rewrite substr_from_1.
Qed.

(** C2, as the header has it: [argv[0]] opens the first token with nothing
    stripped; two leading dashes and a length above 2 open a token named by
    what follows the two dashes; one leading dash and a length above 1 open a
    token named by what follows that dash, and this is also the case of a
    bare "--", which opens a token named "-"; every other argument, a bare
    "-" included, is added to the token that is open. The six arguments of
    the example give the three tokens of the claim. *)
Lemma C2_tokenize_rule :
  (forall tokens argv0 rest, tokenize tokens argv0 rest = amended_tokenize tokens argv0 rest) /\
  tokenize [] "prog" ["-a"; "1"; "2"; "--long"; "x"] =
    [mkToken "prog" []; mkToken "a" ["1"; "2"]; mkToken "long" ["x"]].
Proof.
  split; [|reflexivity].
  intros tokens argv0 rest. unfold tokenize, amended_tokenize.
  generalize (tokens ++ [mkToken argv0 []]). clear tokens argv0.
  induction rest as [|a rest IH]; intros ts; simpl; [done|].
  by rewrite tokenize_arg_amended, IH.
Qed.

(** C2, refuted as stated: on the bare "--" the header opens a token named
    "-"; the claimed rule adds "--" to the arguments of the open token. *)
Lemma C2_double_dash_opens_token :
  tokenize [] "prog" ["--"] = [mkToken "prog" []; mkToken "-" []] /\
  claimed_tokenize [] "prog" ["--"] = [mkToken "prog" ["--"]] /\
  tokenize [] "prog" ["--"] <> claimed_tokenize [] "prog" ["--"].
Proof. split_and!; [reflexivity | reflexivity | discriminate]. Qed.

Lemma claimed_kind_agrees (a : string) :
  a <> "--" -> claimed_kind a = amended_kind a.
Proof.
  intros N. destruct a as [|c1 [|c2 [|c3 r]]]; try reflexivity.
  destruct c1 as [[] [] [] [] [] [] [] []]; try reflexivity.
  destruct c2 as [[] [] [] [] [] [] [] []]; try reflexivity.
  by destruct N.
Qed.

(** ** Packing *)

Section Pack.
Context {World : Type}.
Implicit Types (s : State World) (cb : Callback World).

Lemma to_size_t_small (z : Z) : 0 <= z <= utils.INT_MAX -> to_size_t z = z.
Proof.
  unfold utils.INT_MAX, to_size_t. intros Hz. apply Z.mod_small. lia.
Qed.

(** [pack] never changes the CLI object nor the world, and can only end
    normally or with an [Error]. *)
Lemma pack_cases cb arg s :
  (exists m, pack cb arg s = (s, Error m)) \/
  (exists out, pack cb arg s =
     (mkState (self s) (cout s ++ out) (world s),
      Done (mkPacked (func cb) arg (cb_priority cb)))).
Proof.
  unfold pack. rewrite bind_run.
  destruct (negb (expected_args cb =? -1)); simpl.
  - rewrite bind_run.
    destruct (Z.of_nat (length arg) <? to_size_t (expected_args cb)); simpl.
    + left. eauto.
    + destruct (to_size_t (expected_args cb) <? Z.of_nat (length arg)); simpl.
      * right. eexists [_]. reflexivity.
      * right. exists []. rewrite app_nil_r. by destruct s.
  - right. exists []. rewrite app_nil_r. by destruct s.
Qed.

(** C5: for a callback whose [expected_args] is set (a count that an [int]
    holds), [pack] on fewer arguments throws the error that names the
    command, the number given and the number expected; on more arguments it
    prints one warning and binds all the arguments, unchanged, to the action;
    on exactly as many it binds them silently. A callback whose
    [expected_args] is unset (-1) binds any number of arguments, with no
    error and no warning. *)
Lemma C5_pack_arity cb arg s :
  let size := Z.of_nat (length arg) in
  let bound := mkPacked (func cb) arg (cb_priority cb) in
  (0 <= expected_args cb <= utils.INT_MAX -> size < expected_args cb ->
   pack cb arg s =
     (s, Error (ESC +:+ "[31mERROR: " +:+ ESC +:+ "[0m" +:+
                name cb +:+ ": " +:+ "Too few arguments (" +:+ to_string size +:+
                "), expects " +:+ to_string (expected_args cb)))) /\
  (0 <= expected_args cb <= utils.INT_MAX -> expected_args cb < size ->
   pack cb arg s =
     (mkState (self s)
        (cout s ++ [ESC +:+ "[33mWARNING: " +:+ ESC +:+ "[0m" +:+
                    name cb +:+ ": " +:+ "Expected " +:+ to_string (expected_args cb) +:+
                    " arguments, but " +:+ to_string size +:+ " was given."])
        (world s),
      Done bound)) /\
  (0 <= expected_args cb <= utils.INT_MAX -> expected_args cb = size ->
   pack cb arg s = (s, Done bound)) /\
  (expected_args cb = -1 -> pack cb arg s = (s, Done bound)).
Proof.
  intros size bound. unfold pack. rewrite bind_run. fold size.
  split_and!.
  - intros Hr Hlt. rewrite to_size_t_small by done.
    destruct (Z.eqb_spec (expected_args cb) (-1)); [lia|]. simpl.
    rewrite bind_run.
    destruct (Z.ltb_spec size (expected_args cb)); [|lia]. reflexivity.
  - intros Hr Hgt. rewrite to_size_t_small by done.
    destruct (Z.eqb_spec (expected_args cb) (-1)); [lia|]. simpl.
    rewrite bind_run.
    destruct (Z.ltb_spec size (expected_args cb)); [lia|]. simpl.
    destruct (Z.ltb_spec (expected_args cb) size); [|lia]. reflexivity.
  - intros Hr Heq. rewrite to_size_t_small by done.
    destruct (Z.eqb_spec (expected_args cb) (-1)); [lia|]. simpl.
    rewrite bind_run.
    destruct (Z.ltb_spec size (expected_args cb)); [lia|]. simpl.
    destruct (Z.ltb_spec (expected_args cb) size); [lia|]. by destruct s.
  - intros ->. simpl. by destruct s.
Qed.

(** An [expected_args] below -1 is no count: converted to [std::size_t] it
    exceeds the size of any vector, and [pack] throws on every argument
    list. *)
Lemma pack_negative_arity cb arg s :
  utils.INT_MIN <= expected_args cb < -1 ->
  Z.of_nat (length arg) < 2 ^ 63 ->
  pack cb arg s =
    (s, Error (ESC +:+ "[31mERROR: " +:+ ESC +:+ "[0m" +:+
               name cb +:+ ": " +:+ "Too few arguments (" +:+
               to_string (Z.of_nat (length arg)) +:+
               "), expects " +:+ to_string (expected_args cb))).
Proof.
  unfold utils.INT_MIN. intros He Hlen. unfold pack. rewrite bind_run.
  assert (Hs : to_size_t (expected_args cb) = expected_args cb + 2 ^ 64).
  { unfold to_size_t. rewrite <- (Z.mod_add _ 1) by lia.
    apply Z.mod_small. lia. }
  rewrite Hs.
  destruct (Z.eqb_spec (expected_args cb) (-1)); [lia|]. simpl.
  rewrite bind_run.
  destruct (Z.ltb_spec (Z.of_nat (length arg)) (expected_args cb + 2 ^ 64)); [|lia].
  reflexivity.
Qed.

End Pack.

(** The four cases of C5 on concrete callbacks: "n" expects one argument,
    "p" has no expectation. *)
Lemma C5_pack_arity_witness :
  let n := mkCallback "n" (say "n") 1 (-1) in
  let p := mkCallback "p" (say "p") (-1) (-1) in
  pack n [] fresh =
    (fresh, Error (ESC +:+ "[31mERROR: " +:+ ESC +:+ "[0m" +:+ "n: Too few arguments (0), expects 1")) /\
  pack n ["1"; "2"] fresh =
    (mkState CLI_new
       [ESC +:+ "[33mWARNING: " +:+ ESC +:+ "[0m" +:+ "n: Expected 1 arguments, but 2 was given."] [],
     Done (mkPacked (say "n") ["1"; "2"] (-1))) /\
  pack n ["1"] fresh = (fresh, Done (mkPacked (say "n") ["1"] (-1))) /\
  pack p ["1"; "2"; "3"] fresh = (fresh, Done (mkPacked (say "p") ["1"; "2"; "3"] (-1))).
Proof.
  intros n p.
  split_and!.
  - apply (proj1 (C5_pack_arity n [] fresh)); [done | reflexivity].
  - apply (proj1 (proj2 (C5_pack_arity n ["1"; "2"] fresh))); [done | reflexivity].
  - apply (proj1 (proj2 (proj2 (C5_pack_arity n ["1"] fresh)))); [done | reflexivity].
  - apply (proj2 (proj2 (proj2 (C5_pack_arity p ["1"; "2"; "3"] fresh)))). reflexivity.
Defined.

(** ** Value bindings *)

Section ValueAction.
Context {World : Type}.

Lemma skip_space_chars (s : string) (c : ascii) :
  c ∈ chars (utils.skip_space s) -> c ∈ chars s.
Proof.
  induction s as [|c' s IH]; simpl; [done|].
  destruct (utils.isspace c'); [|done].
  intros Hc. apply elem_of_cons. right. by apply IH.
Qed.

(** A string that holds no decimal digit is not converted by [std::stoi]. *)
Lemma stoi_no_digit (s : string) :
  (forall c, c ∈ chars s -> utils.digit c = None) -> utils.stoi s = None.
Proof.
  intros Hs. unfold utils.stoi.
  assert (Hs1 : forall c, c ∈ chars (utils.skip_space s) -> utils.digit c = None)
    by (intros c Hc; apply Hs, skip_space_chars, Hc).
  destruct (utils.skip_space s) as [|c1 r1]; [done|].
  assert (Hsign : forall neg s2, (forall c, c ∈ chars s2 -> utils.digit c = None) ->
            match s2 with
            | String c _ =>
                match utils.digit c with
                | Some _ =>
                    let v := utils.read_digits s2 0 in
                    let v := if neg : bool then - v else v in
                    if (utils.INT_MIN <=? v) && (v <=? utils.INT_MAX) then Some v else None
                | None => None
                end
            | EmptyString => None
            end = None).
  { intros neg [|c r] Hc; [done|].
    rewrite (Hc c); [done|]. simpl. apply elem_of_cons. by left. }
  assert (Hr1 : forall c, c ∈ chars r1 -> utils.digit c = None).
  { intros c Hc. apply Hs1. simpl. apply elem_of_cons. by right. }
  destruct c1 as [[] [] [] [] [] [] [] []];
    first [ apply (Hsign true r1 Hr1) | apply (Hsign false r1 Hr1) | apply (Hsign false _ Hs1) ].
Qed.

(** C7, as the header has it: the action of an [int] value binding, called
    on an argument that [std::stoi] does not convert (no decimal digit
    follows the leading white space and the sign, or the value is outside
    [int]), throws the conversion error and leaves the world, hence the
    bound variable, as it was; called on an argument whose value the
    restrictor rejects, it throws the invalid-value error and leaves the
    world as it was; called on any other argument it assigns the value that
    [std::stoi] has read, which is the value of the numeric prefix of the
    argument, and returns normally. The bound arguments are never changed. *)
Lemma C7_int_value_failure_keeps_target
    (value : Z -> World -> World) (restrictor : Restrictor Z)
    (a0 : string) (rest : CmdArg) (prio : Z) (w : World) :
  let bound := mkPacked (value_action value restrictor) (a0 :: rest) prio in
  (utils.stoi a0 = None ->
   call bound w =
     (bound, w, Error (ESC +:+ "[31mERROR: " +:+ ESC +:+ "[0m" +:+
                       "Unexpected conversion of '" +:+ a0 +:+ "' to int."))) /\
  (forall v, utils.stoi a0 = Some v -> restrictor v = false ->
   call bound w =
     (bound, w, Error (ESC +:+ "[31mERROR: " +:+ ESC +:+ "[0m" +:+
                       "Invaild value '" +:+ a0 +:+ "'"))) /\
  (forall v, utils.stoi a0 = Some v -> restrictor v = true ->
   call bound w = (bound, value v w, Done tt)).
Proof.
  intros bound. unfold call, bound, value_action, str_to, str_to_int_inst, utils.str_to_int.
  simpl. split_and!.
  - intros ->. reflexivity.
  - intros v -> Hr. simpl. rewrite Hr. reflexivity.
  - intros v -> Hr. simpl. rewrite Hr. reflexivity.
Qed.

End ValueAction.

(** C7 on the variable [n = 7]: "x" is not a number, 9 is outside
    [range(0, 5)], and 3 is assigned. *)
Lemma C7_int_value_failure_witness :
  let conv := mkPacked (value_action set_n default_restrictor) ["x"] (-1) in
  let rng := mkPacked (value_action set_n (range 0 5)) ["9"] (-1) in
  let ok := mkPacked (value_action set_n (range 0 5)) ["3"] (-1) in
  call conv 7 =
    (conv, 7, Error (ESC +:+ "[31mERROR: " +:+ ESC +:+ "[0m" +:+ "Unexpected conversion of 'x' to int.")) /\
  call rng 7 =
    (rng, 7, Error (ESC +:+ "[31mERROR: " +:+ ESC +:+ "[0m" +:+ "Invaild value '9'")) /\
  call ok 7 = (ok, 3, Done tt).
Proof.
  intros conv rng ok. split; [|split].
  - apply (proj1 (C7_int_value_failure_keeps_target set_n default_restrictor "x" [] (-1) 7)).
    reflexivity.
  - apply (proj1 (proj2 (C7_int_value_failure_keeps_target set_n (range 0 5) "9" [] (-1) 7)) 9);
      reflexivity.
  - apply (proj2 (proj2 (C7_int_value_failure_keeps_target set_n (range 0 5) "3" [] (-1) 7)) 3);
      reflexivity.
Defined.

(** C7, refuted as stated: "12abc" is not a number, yet [std::stoi] reads
    its prefix 12: the action throws nothing and assigns 12 to the bound
    variable, which was 7; so does the whole pipeline, from the
    registration by [add_value] to [run]. *)
Lemma C7_numeric_prefix_is_assigned :
  let S := insertion_StdSort in
  let bound := mkPacked (value_action set_n default_restrictor) ["12abc"] (-1) in
  let r := (add_value "n" set_n default_restrictor;; parse "prog" ["-n"; "12abc"];; run)
             (mkState CLI_new [] 7) in
  numeric "12abc" = false /\
  utils.stoi "12abc" = Some 12 /\
  call bound 7 = (bound, 12, Done tt) /\
  r.2 = Done tt /\
  world r.1 = 12.
Proof. intros S bound r. split_and!; reflexivity. Qed.

(** A successful conversion does assign: the variable changes from 7 to 3. *)
Example value_action_assigns :
  call (mkPacked (value_action set_n (range 0 5)) ["3"] (-1)) 7
  = (mkPacked (value_action set_n (range 0 5)) ["3"] (-1), 3, Done tt).
Proof. reflexivity. Qed.

(** ** Registration *)

Section Registration.
Context {World : Type}.
Implicit Types (s : State World) (f : @Cmd World).

Lemma found_is_Some {V : Type} (m : gmap string V) (k : string) :
  found m k = true <-> is_Some (m !! k).
Proof.
  unfold found. destruct (m !! k); split; intros H;
    first [ done | by eexists | by destruct H ].
Qed.

Lemma found_false {V : Type} (m : gmap string V) (k : string) :
  found m k = false <-> m !! k = None.
Proof. unfold found. by destruct (m !! k). Qed.

(** What [add_cmd] does, case by case. *)
Lemma add_cmd_run cmd f e p s :
  add_cmd cmd f e p s =
  if parsed (self s) then (s, utils.fatal "Can not add_cmd() after parse().")
  else if found (funcs (self s)) cmd then
    (s, utils.fatal ("Duplicate names are prohibited.('" +:+ cmd +:+ "')."))
  else
    (mkState (set_funcs (<[cmd:=mkCallback cmd f e p]> (funcs (self s))) (self s))
             (cout s) (world s),
     Done tt).
Proof.
  unfold add_cmd. munfold. simpl.
  destruct (parsed (self s)); [reflexivity|].
  destruct (found (funcs (self s)) cmd) eqn:Hf; [reflexivity|].
  simpl. unfold map_insert.
  apply found_false in Hf. by rewrite Hf.
Qed.

Lemma add_cmd_alias_run cmd alia f e p s :
  add_cmd_alias cmd alia f e p s =
  if parsed (self s) then (s, utils.fatal "Can not add_cmd() after parse().")
  else if found (funcs (self s)) cmd then
    (s, utils.fatal ("Duplicate names are prohibited.('" +:+ cmd +:+ "')."))
  else if found (alias (self s)) alia then
    (s, utils.fatal ("Duplicate names are prohibited.('" +:+ alia +:+ "')."))
  else
    (mkState (mkCLI (tokens (self s))
                    (<[alia:=cmd]> (alias (self s)))
                    (<[cmd:=mkCallback cmd f e p]> (funcs (self s)))
                    (tasks (self s)) (parsed (self s)))
             (cout s) (world s),
     Done tt).
Proof.
  unfold add_cmd_alias. munfold. simpl.
  destruct (parsed (self s)) eqn:Hp; [reflexivity|].
  destruct (found (funcs (self s)) cmd) eqn:Hf; [reflexivity|].
  destruct (found (alias (self s)) alia) eqn:Ha; [reflexivity|].
  simpl. unfold map_insert.
  apply found_false in Hf. apply found_false in Ha. rewrite Hf, Ha.
  unfold set_alias, set_funcs. simpl. by rewrite Hp.
Qed.





Lemma add_cmd_fatal cmd f e p s :
  is_fatal (add_cmd cmd f e p s).2 <->
  parsed (self s) = true \/ is_Some (funcs (self s) !! cmd).
Proof.
  rewrite add_cmd_run, <- found_is_Some.
  destruct (parsed (self s)); simpl; [tauto|].
  destruct (found (funcs (self s)) cmd); simpl; intuition congruence.
Qed.


Lemma run_unparsed s :
  parsed (self s) = false -> run s = (s, utils.fatal "Option has not parsed.").
Proof. intros Hp. unfold run. rewrite bind_run. simpl. by rewrite Hp. Qed.


End Registration.



(** ** Cluster expansion *)

Section Expansion.
Context {World : Type}.
Implicit Types (s : State World) (c : CLI World).

Lemma for_each_warn {A : Type} (msg : A -> string) (l : list A) s :
  for_each (fun r => warn (msg r)) l s =
  (mkState (self s) (cout s ++ map (fun r => utils.warn (msg r)) l) (world s), Done tt).
Proof.
  revert s. induction l as [|x l IH]; intros s; simpl.
  - rewrite app_nil_r. by destruct s.
  - rewrite bind_run. unfold warn at 1. rewrite IH. simpl.
    by rewrite <- app_assoc.
Qed.

Lemma insert_chars_spec (cs : list ascii) (pre suf : list Token) :
  insert_chars cs (length pre) (pre ++ suf) =
  (length (pre ++ map (fun ch => mkToken (string1 ch) []) cs),
   pre ++ map (fun ch => mkToken (string1 ch) []) cs ++ suf).
Proof.
  revert pre. induction cs as [|ch cs IH]; intros pre; simpl.
  - by rewrite app_nil_r.
  - unfold vec_insert. rewrite take_app_length, drop_app_length.
    replace (S (length pre)) with (length (pre ++ [mkToken (string1 ch) []]))
      by (rewrite length_app; simpl; lia).
    replace (pre ++ mkToken (string1 ch) [] :: suf)
      with ((pre ++ [mkToken (string1 ch) []]) ++ suf) by (by rewrite <- app_assoc).
    rewrite IH. by rewrite <- !app_assoc.
Qed.

Lemma vec_erase_app {A : Type} (pre : list A) (x : A) (suf : list A) :
  vec_erase (length pre) (pre ++ x :: suf) = pre ++ suf.
Proof.
  unfold vec_erase. rewrite take_app_length.
  replace (S (length pre)) with (length (pre ++ [x])) by (rewrite length_app; simpl; lia).
  replace (pre ++ x :: suf) with ((pre ++ [x]) ++ suf) by (by rewrite <- app_assoc).
  by rewrite drop_app_length.
Qed.

Lemma expand_set_tokens c (v suf : list Token) :
  expand (is_multi (set_tokens v c)) suf = expand (is_multi c) suf.
Proof. reflexivity. Qed.

(** The loop of [parse_multi] ends within its fuel and computes [expand]. *)
Lemma parse_multi_loop_spec (fuel : nat) (pre suf : list Token) s :
  tokens (self s) = pre ++ suf ->
  (length suf <= fuel)%nat ->
  parse_multi_loop fuel (length pre) s =
  (mkState (set_tokens (pre ++ (expand (is_multi (self s)) suf).1) (self s))
           (cout s ++ (expand (is_multi (self s)) suf).2) (world s),
   Done tt).
Proof.
  revert pre suf s. induction fuel as [|fuel IH]; intros pre suf s Htok Hfuel.
  - destruct suf; [|simpl in Hfuel; lia]. simpl.
    rewrite !app_nil_r. rewrite <- (app_nil_r pre), <- Htok.
    destruct s as [[] ? ?]. reflexivity.
  - simpl. rewrite bind_run. simpl. rewrite Htok.
    destruct suf as [|t after].
    + rewrite app_nil_r. rewrite lookup_ge_None_2 by lia. simpl.
      rewrite !app_nil_r. rewrite <- (app_nil_r pre), <- Htok.
      destruct s as [[] ? ?]. reflexivity.
    + rewrite list_lookup_middle by done. simpl.
      destruct (is_multi (self s) (cmd t)) eqn:Hm.
      * rewrite insert_chars_spec.
        set (inserted := map (fun ch => mkToken (string1 ch) []) (chars (cmd t))).
        rewrite bind_run. simpl. rewrite bind_run. rewrite for_each_warn. simpl.
        rewrite bind_run. simpl.
        replace (pre ++ inserted ++ t :: after) with ((pre ++ inserted) ++ t :: after)
          by (by rewrite <- app_assoc).
        rewrite vec_erase_app.
        destruct after as [|skipped after'].
        -- rewrite app_nil_r.
           destruct fuel as [|fuel]; simpl.
           ++ reflexivity.
           ++ rewrite bind_run. simpl. rewrite lookup_ge_None_2 by lia.
              reflexivity.
        -- replace (S (length (pre ++ inserted)))
             with (length ((pre ++ inserted) ++ [skipped]))
             by (rewrite !length_app; simpl; lia).
           rewrite (IH ((pre ++ inserted) ++ [skipped]) after').
           ++ simpl. rewrite !expand_set_tokens.
              destruct (expand (is_multi (self s)) after') as [ts ls]. simpl.
              unfold set_tokens. simpl.
              rewrite <- !app_assoc. simpl. reflexivity.
           ++ simpl. by rewrite <- !app_assoc.
           ++ simpl in Hfuel. lia.
      * replace (S (length pre)) with (length (pre ++ [t]))
          by (rewrite length_app; simpl; lia).
        rewrite (IH (pre ++ [t]) after).
        -- destruct (expand (is_multi (self s)) after) as [ts ls]. simpl.
           by rewrite <- app_assoc.
        -- rewrite Htok. by rewrite <- app_assoc.
        -- simpl in Hfuel. lia.
Qed.

Lemma parse_multi_spec s :
  parse_multi s =
  (mkState (set_tokens (expand (is_multi (self s)) (tokens (self s))).1 (self s))
           (cout s ++ (expand (is_multi (self s)) (tokens (self s))).2) (world s),
   Done tt).
Proof.
  unfold parse_multi. rewrite bind_run. simpl.
  apply (parse_multi_loop_spec (length (tokens (self s))) [] (tokens (self s)) s);
    [done | lia].
Qed.

(** Where no cluster comes right after a cluster, the loop does expand every
    cluster. *)
Lemma expand_claimed (multi : string -> bool) (toks : list Token) :
  no_cluster_after_cluster multi toks ->
  (expand multi toks).1 = claimed_expand multi toks.
Proof.
  remember (length toks) as n eqn:Hn.
  revert toks Hn. induction (lt_wf n) as [n _ IH]. intros toks -> Hno.
  destruct toks as [|t after]; [done|].
  destruct Hno as [Hnext Hno]. simpl.
  destruct (multi (cmd t)) eqn:Hm.
  - destruct after as [|t' after']; simpl.
    + by rewrite app_nil_r.
    + destruct Hno as [_ Hno]. rewrite (Hnext eq_refl).
      specialize (IH (length after') ltac:(simpl; lia) after' eq_refl Hno).
      destruct (expand multi after') as [ts ls]. simpl in *. by rewrite IH.
  - specialize (IH (length after) ltac:(simpl; lia) after eq_refl Hno).
    destruct (expand multi after) as [ts ls]. simpl in *. by rewrite IH.
Qed.

Lemma parse_multi_claimed s :
  no_cluster_after_cluster (is_multi (self s)) (tokens (self s)) ->
  tokens (self (parse_multi s).1) = claimed_expand (is_multi (self s)) (tokens (self s)).
Proof. intros Hno. rewrite parse_multi_spec. simpl. by apply expand_claimed. Qed.

End Expansion.

(** ** The resolving loop *)

Section Resolve.
Context {World : Type}.
Implicit Types (s : State World) (r : Token).

Lemma extends_refl s : extends s s.
Proof. repeat split. exists []. by rewrite app_nil_r. Qed.

Lemma extends_trans s1 s2 s3 : extends s1 s2 -> extends s2 s3 -> extends s1 s3.
Proof.
  intros (Ht1 & Ha1 & Hp1 & Hw1 & n1 & Hn1) (Ht2 & Ha2 & Hp2 & Hw2 & n2 & Hn2).
  repeat split; try congruence.
  exists (n1 ++ n2). rewrite Hn2, Hn1. by rewrite <- app_assoc.
Qed.

Lemma funcs_at_run (k : string) s :
  funcs_at k s =
  match funcs (self s) !! k with
  | Some cb => (s, Done cb)
  | None =>
      (mkState (set_funcs (<[k:=Callback_default]> (funcs (self s))) (self s)) (cout s) (world s),
       Done Callback_default)
  end.
Proof.
  unfold funcs_at. rewrite bind_run. simpl.
  by destruct (funcs (self s) !! k).
Qed.

Lemma pack_then_push (cb : Callback World) r s :
  (exists m, (pack cb (args r) ≫= push_task) s = (s, Error m) /\ pack cb (args r) s = (s, Error m)) \/
  (exists s', (pack cb (args r) ≫= push_task) s = (s', Done tt) /\ extends s s' /\
              funcs (self s') = funcs (self s)).
Proof.
  rewrite bind_run.
  destruct (pack_cases cb (args r) s) as [[m Hm]|[out Hout]].
  - left. exists m. by rewrite Hm.
  - right. rewrite Hout. eexists. split; [reflexivity|].
    split; [|done]. repeat split. simpl. by eexists.
Qed.

(** The three ways of a token: its name is a primary name; else it is an
    alias, of a primary name; else it is reported, with its arguments. *)
Lemma dispatch_primary r s (cb : Callback World) :
  funcs (self s) !! cmd r = Some cb ->
  dispatch r s = (pack cb (args r) ≫= push_task) s.
Proof.
  intros Hf. unfold dispatch. rewrite bind_run. simpl.
  unfold found. rewrite Hf. rewrite bind_run, funcs_at_run, Hf. reflexivity.
Qed.

Lemma dispatch_alias r s (a : string) (cb : Callback World) :
  funcs (self s) !! cmd r = None ->
  alias (self s) !! cmd r = Some a ->
  funcs (self s) !! a = Some cb ->
  dispatch r s = (pack cb (args r) ≫= push_task) s.
Proof.
  intros Hf Ha Hcb. unfold dispatch. rewrite bind_run. simpl.
  unfold found. rewrite Hf, Ha. rewrite bind_run. unfold alias_at.
  rewrite bind_run. simpl. rewrite Ha. simpl.
  rewrite bind_run, funcs_at_run, Hcb. reflexivity.
Qed.

Lemma dispatch_unrecognized r s :
  funcs (self s) !! cmd r = None ->
  alias (self s) !! cmd r = None ->
  dispatch r s =
  (mkState (self s)
     (cout s ++ utils.warn ("Unrecognized option '" +:+ cmd r +:+ "'.") ::
        map (fun a => utils.warn ("Discarded arguments '" +:+ a +:+ "'")) (args r))
     (world s),
   Done tt).
Proof.
  intros Hf Ha. unfold dispatch. rewrite bind_run. simpl.
  unfold found. rewrite Hf, Ha. rewrite bind_run. unfold warn at 1.
  rewrite for_each_warn. simpl. by rewrite <- app_assoc.
Qed.

(** A turn of the resolving loop either throws the error of [pack] and
    leaves the state as it was, or ends normally. *)
Lemma dispatch_cases r s :
  (exists m, dispatch r s = (s, Error m)) \/
  (exists s', dispatch r s = (s', Done tt) /\ extends s s').
Proof.
  unfold dispatch. rewrite bind_run. simpl.
  destruct (found (funcs (self s)) (cmd r)) eqn:Hf.
  - rewrite bind_run, funcs_at_run.
    unfold found in Hf. destruct (funcs (self s) !! cmd r) as [cb|]; [|done].
    destruct (pack_then_push cb r s) as [(m & Hm & _)|(s' & Hs' & He & _)].
    + left. exists m. exact Hm.
    + right. exists s'. by split.
  - destruct (found (alias (self s)) (cmd r)) eqn:Ha.
    + rewrite bind_run. unfold alias_at. rewrite bind_run. simpl.
      unfold found in Ha. destruct (alias (self s) !! cmd r) as [a|]; [|done].
      simpl. rewrite bind_run, funcs_at_run.
      destruct (funcs (self s) !! a) as [cb|].
      * destruct (pack_then_push cb r s) as [(m & Hm & _)|(s' & Hs' & He & _)].
        -- left. exists m. exact Hm.
        -- right. exists s'. by split.
      * right. eexists. split; [reflexivity|].
        repeat split. simpl. by eexists.
    + right. rewrite bind_run. unfold warn at 1. rewrite for_each_warn. simpl.
      eexists. split; [reflexivity|]. repeat split. simpl.
      exists []. by rewrite app_nil_r.
Qed.

(** A loop that throws did so on some element, after all the elements
    before it went through. *)
Lemma for_each_error {A : Type} (body : A -> @M World unit) (l : list A) s s' (m : string) :
  for_each body l s = (s', Error m) ->
  exists pre t post s1,
    l = pre ++ t :: post /\
    for_each body pre s = (s1, Done tt) /\
    body t s1 = (s', Error m).
Proof.
  revert s. induction l as [|x l IH]; intros s Hl; simpl in Hl; [done|].
  rewrite bind_run in Hl.
  destruct (body x s) as [s1 [[]|e|e|]] eqn:Hx; try done.
  - destruct (IH s1 Hl) as (pre & t & post & s2 & -> & Hpre & Ht).
    exists (x :: pre), t, post, s2. split_and!; [done | | done].
    simpl. rewrite bind_run, Hx. exact Hpre.
  - exists [], x, l, s. split_and!; [done | done |]. congruence.
Qed.

Lemma for_each_dispatch_cases (l : list Token) s :
  (exists s' m, for_each dispatch l s = (s', Error m) /\ extends s s') \/
  (exists s', for_each dispatch l s = (s', Done tt) /\ extends s s').
Proof.
  revert s. induction l as [|r l IH]; intros s; simpl.
  - right. exists s. split; [done | apply extends_refl].
  - rewrite bind_run.
    destruct (dispatch_cases r s) as [[m Hm]|(s1 & Hs1 & He1)].
    + left. exists s, m. rewrite Hm. split; [done | apply extends_refl].
    + rewrite Hs1.
      destruct (IH s1) as [(s' & m & Hs' & He)|(s' & Hs' & He)].
      * left. exists s', m. split; [done | by eapply extends_trans].
      * right. exists s'. split; [done | by eapply extends_trans].
Qed.

End Resolve.

(** ** run *)

Section Run.
Context {World : Type}.
Implicit Types (s : State World) (ts : list (Packed World)) (w : World).

Lemma call_keeps (p : Packed World) w :
  priority (call p w).1.1 = priority p /\ bound_func (call p w).1.1 = bound_func p.
Proof.
  unfold call. by destruct (bound_func p (bound_arg p) w) as [[a w'] o].
Qed.

(** The loop changes neither the priorities nor the functions of the tasks:
    an action can only write the arguments bound to it. *)
Lemma run_tasks_keeps ts w :
  map priority (run_tasks ts w).1.1 = map priority ts /\
  map bound_func (run_tasks ts w).1.1 = map bound_func ts.
Proof.
  revert w. induction ts as [|r ts IH]; intros w; simpl; [done|].
  pose proof (call_keeps r w) as [Hp Hf].
  destruct (call r w) as [[r' w'] [[]|e|e|]]; simpl in *;
    try (by rewrite Hp, Hf).
  specialize (IH w') as [IHp IHf].
  destruct (run_tasks ts w') as [[ts'' w''] o]. simpl in *.
  by rewrite Hp, Hf, IHp, IHf.
Qed.

Lemma run_parsed s :
  parsed (self s) = true ->
  run s =
  (mkState (set_tasks (run_tasks (tasks (self s)) (world s)).1.1 (self s)) (cout s)
           (run_tasks (tasks (self s)) (world s)).1.2,
   (run_tasks (tasks (self s)) (world s)).2).
Proof.
  intros Hp. unfold run. rewrite bind_run. simpl. rewrite Hp. simpl.
  rewrite bind_run. simpl.
  unfold run_loop. by destruct (run_tasks (tasks (self s)) (world s)) as [[ts w] o].
Qed.

Lemma StronglySorted_lookup {A : Type} (R : relation A) (l : list A) (i j : nat) (x y : A) :
  StronglySorted R l -> (i < j)%nat -> l !! i = Some x -> l !! j = Some y -> R x y.
Proof.
  intros Hl. revert i j. induction Hl as [|a l Hl IH Ha]; intros i j Hij Hi Hj; [done|].
  destruct j as [|j]; [lia|]. simpl in Hj.
  destruct i as [|i]; simpl in Hi.
  - injection Hi as ->. rewrite Forall_forall in Ha. apply Ha.
    by eapply list_elem_of_lookup_2.
  - apply (IH i j); [lia | done | done].
Qed.

Lemma filter_eq_seq (i a n : nat) :
  length (filter (eq i) (seq a n)) = if decide (a <= i < a + n)%nat then 1%nat else 0%nat.
Proof.
  revert a. induction n as [|n IH]; intros a; simpl.
  - case_decide; [lia | done].
  - rewrite filter_cons. destruct (decide (i = a)); simpl; rewrite IH;
      repeat case_decide; lia.
Qed.

(** The loop of [run] is the invocation of the tasks at the positions 0, 1,
    ... in turn. *)
Lemma run_tasks_invoke_seq (pre : list (Packed World)) ts w :
  (invoke_seq (seq (length pre) (length ts)) (pre ++ ts) w).1 =
  (pre ++ (run_tasks ts w).1.1, (run_tasks ts w).1.2, (run_tasks ts w).2).
Proof.
  revert pre w. induction ts as [|r ts IH]; intros pre w; simpl.
  - by rewrite app_nil_r.
  - unfold invoke. rewrite list_lookup_middle by done.
    destruct (call r w) as [[r' w'] [[]|e|e|]];
      rewrite insert_app_r_alt by lia; rewrite Nat.sub_diag; simpl; try done.
    specialize (IH (pre ++ [r']) w').
    rewrite length_app in IH. simpl in IH. rewrite Nat.add_1_r, <- app_assoc in IH. simpl in IH.
    destruct (invoke_seq (seq (S (length pre)) (length ts)) (pre ++ r' :: ts) w') as [res tr].
    simpl in *. rewrite IH.
    destruct (run_tasks ts w') as [[ts'' w''] o]. simpl. by rewrite <- app_assoc.
Qed.

(** [run] on a parsed CLI does these invocations and nothing else. *)
Lemma run_invokes s :
  parsed (self s) = true ->
  run s =
  after_invocations s
    (invoke_seq (seq 0 (length (tasks (self s)))) (tasks (self s)) (world s)).1.
Proof.
  intros Hp. rewrite (run_parsed s Hp).
  pose proof (run_tasks_invoke_seq [] (tasks (self s)) (world s)) as Hi. simpl in Hi.
  unfold after_invocations. by rewrite Hi.
Qed.

Lemma invoke_length (i : nat) ts w : length (invoke i ts w).1.1 = length ts.
Proof.
  unfold invoke. destruct (ts !! i) as [p|]; [|done].
  destruct (call p w) as [[p' w'] o]. simpl. apply length_insert.
Qed.

Lemma invoke_seq_length (schedule : list nat) ts w :
  length (invoke_seq schedule ts w).1.1.1 = length ts.
Proof.
  revert ts w. induction schedule as [|i schedule IH]; intros ts w; simpl; [done|].
  pose proof (invoke_length i ts w) as Hl.
  destruct (invoke i ts w) as [[ts' w'] [[]|e|e|]]; simpl in *; try done.
  specialize (IH ts' w').
  destruct (invoke_seq schedule ts' w') as [res tr]. simpl in *. congruence.
Qed.

(** The positions invoked are the schedule up to the action that threw, and
    the whole of it when none did. *)
Lemma invoke_seq_invoked (schedule : list nat) ts w :
  exists k : nat,
    (invoke_seq schedule ts w).2 = take k schedule /\
    (k <= length schedule)%nat /\
    ((invoke_seq schedule ts w).1.2 = Done tt -> k = length schedule).
Proof.
  revert ts w. induction schedule as [|i schedule IH]; intros ts w; simpl.
  - exists 0%nat. by split_and!.
  - destruct (invoke i ts w) as [[ts' w'] [[]|e|e|]];
      try (exists 1%nat; split_and!; [simpl; by rewrite take_0 | simpl; lia | done]).
    destruct (IH ts' w') as (k & Hk & Hle & Hdone).
    destruct (invoke_seq schedule ts' w') as [res tr]. simpl in *.
    exists (S k). split_and!; [by rewrite Hk | lia | intros Ho; by rewrite Hdone].
Qed.

(** Two schedules in a row. *)
Lemma invoke_seq_app (l1 l2 : list nat) ts w :
  (invoke_seq l1 ts w).1.2 = Done tt ->
  (invoke_seq (l1 ++ l2) ts w).1 =
  (invoke_seq l2 (invoke_seq l1 ts w).1.1.1 (invoke_seq l1 ts w).1.1.2).1.
Proof.
  revert ts w. induction l1 as [|i l1 IH]; intros ts w; simpl; [done|].
  destruct (invoke i ts w) as [[ts' w'] [[]|e|e|]]; simpl; try done.
  specialize (IH ts' w').
  destruct (invoke_seq l1 ts' w') as [res tr].
  destruct (invoke_seq (l1 ++ l2) ts' w') as [res' tr']. simpl in *. done.
Qed.

(** C9, as the header has it: [run] has no guard against a second call.
    From a state whose [parsed] flag is set, [run] invokes the tasks at the
    positions 0, 1, ... in turn, up to the first action that throws, and does
    nothing else; it leaves the flag set and the priorities and functions of
    the tasks as they were, so that the next [run] does the same again, on
    the arguments and the world that the first has left. When two runs in a
    row both return normally, each has invoked every task once, in the same
    order: each position occurs exactly twice among the invocations, and the
    second run leaves what the invocations 0, ..., n-1, 0, ..., n-1 leave. *)
Lemma C9_run_twice s :
  parsed (self s) = true ->
  let n := length (tasks (self s)) in
  let s1 := (run s).1 in
  let once := invoke_seq (seq 0 n) (tasks (self s)) (world s) in
  let again := invoke_seq (seq 0 n) (tasks (self s1)) (world s1) in
  run s = after_invocations s once.1 /\
  run s1 = after_invocations s1 again.1 /\
  parsed (self s1) = true /\
  map priority (tasks (self s1)) = map priority (tasks (self s)) /\
  map bound_func (tasks (self s1)) = map bound_func (tasks (self s)) /\
  (exists k : nat, once.2 = seq 0 k /\ (k <= n)%nat) /\
  (exists k : nat, again.2 = seq 0 k /\ (k <= n)%nat) /\
  ((run s).2 = Done tt -> (run s1).2 = Done tt ->
   once.2 = seq 0 n /\
   again.2 = seq 0 n /\
   (forall i : nat, (i < n)%nat -> length (filter (eq i) (once.2 ++ again.2)) = 2%nat) /\
   run s1 =
     after_invocations s (invoke_seq (seq 0 n ++ seq 0 n) (tasks (self s)) (world s)).1).
Proof.
  intros Hp n s1 once again.
  assert (Hs1 : s1 = mkState (set_tasks (run_tasks (tasks (self s)) (world s)).1.1 (self s))
                        (cout s) (run_tasks (tasks (self s)) (world s)).1.2)
    by (unfold s1; by rewrite run_parsed).
  assert (Hp1 : parsed (self s1) = true) by (by rewrite Hs1).
  destruct (run_tasks_keeps (tasks (self s)) (world s)) as [Kp Kf].
  assert (Ht1 : tasks (self s1) = (run_tasks (tasks (self s)) (world s)).1.1)
    by (by rewrite Hs1).
  assert (Hn1 : length (tasks (self s1)) = n).
  { unfold n. rewrite <- (length_map priority), <- (length_map priority (tasks (self s))).
    by rewrite Ht1, Kp. }
  assert (Hrun : run s = after_invocations s once.1) by (by apply run_invokes).
  assert (Hrun1 : run s1 = after_invocations s1 again.1).
  { unfold again. rewrite <- Hn1. by apply run_invokes. }
  destruct (invoke_seq_invoked (seq 0 n) (tasks (self s)) (world s)) as (k & Hk & Hle & Hdone).
  destruct (invoke_seq_invoked (seq 0 n) (tasks (self s1)) (world s1))
    as (k1 & Hk1 & Hle1 & Hdone1).
  rewrite length_seq in Hle, Hle1, Hdone, Hdone1.
  rewrite take_seq, Nat.min_l in Hk, Hk1 by done.
  fold once in Hk, Hdone. fold again in Hk1, Hdone1.
  split_and!; [done | done | done | by rewrite Ht1 | by rewrite Ht1 | by exists k | by exists k1 |].
  intros Ho Ho1.
  rewrite Hrun in Ho. rewrite Hrun1 in Ho1. simpl in Ho, Ho1.
  rewrite Hk, Hk1, (Hdone Ho), (Hdone1 Ho1).
  split_and!; [done | done | |].
  - intros i Hi. rewrite filter_app, length_app, !filter_eq_seq.
    by rewrite decide_True by lia.
  - rewrite Hrun1. unfold again, after_invocations.
    rewrite (invoke_seq_app (seq 0 n) (seq 0 n) (tasks (self s)) (world s)) by exact Ho.
    fold once.
    assert (Hst : s1 = (after_invocations s once.1).1) by (unfold s1; by rewrite Hrun).
    rewrite Hst. reflexivity.
Qed.

End Run.

(** C9 on the example of the priorities: two runs call "high", "low",
    "high", "low". *)
Lemma C9_run_twice_witness :
  let S := insertion_StdSort in
  let s := (parse "prog" ["-lowcmd"; "-highcmd"] (registered low_high)).1 in
  let s1 := (run s).1 in
  world (run s1).1 = ["high()"; "low()"; "high()"; "low()"] /\
  (run s).2 = Done tt /\
  (run s1).2 = Done tt /\
  (invoke_seq (seq 0 3) (tasks (self s)) (world s)).2 = [0; 1; 2]%nat /\
  (invoke_seq (seq 0 3) (tasks (self s1)) (world s1)).2 = [0; 1; 2]%nat /\
  (forall i : nat, (i < 3)%nat ->
     length (filter (eq i) ((invoke_seq (seq 0 3) (tasks (self s)) (world s)).2 ++
                            (invoke_seq (seq 0 3) (tasks (self s1)) (world s1)).2)) = 2%nat) /\
  run s1 =
    after_invocations s (invoke_seq (seq 0 3 ++ seq 0 3) (tasks (self s)) (world s)).1.
Proof.
  intros S s s1.
  split; [reflexivity|]. split; [reflexivity|]. split; [reflexivity|].
  exact (proj2 (proj2 (proj2 (proj2 (proj2 (proj2 (proj2 (C9_run_twice s eq_refl)))))))
           eq_refl eq_refl).
Defined.

(** C9, refuted as stated: the value binding "n", of priority 10, is given
    "x" and throws when it is invoked. Each of two runs in a row stops at
    it: the world is as it was after both, although the task of "o", at the
    position 1, writes to it whenever it is invoked. That task is invoked
    by neither run, not twice. *)
Lemma C9_throwing_action_stops_run :
  let S := insertion_StdSort in
  let r := parse "prog" ["-o"; "-n"; "x"] (registered value_and_flag) in
  let s := r.1 in
  let s1 := (run s).1 in
  let m := ESC +:+ "[31mERROR: " +:+ ESC +:+ "[0m" +:+ "Unexpected conversion of 'x' to int." in
  r.2 = Done tt /\
  parsed (self s) = true /\
  map priority (tasks (self s)) = [10; 5; -1] /\
  (run s).2 = Error m /\
  (run s1).2 = Error m /\
  world s = [] /\
  world (run s).1 = [] /\
  world (run s1).1 = [] /\
  (invoke 1 (tasks (self s)) (world s)).1.2 = ["o()"] /\
  (invoke_seq (seq 0 3) (tasks (self s)) (world s)).2 = [0%nat] /\
  (invoke_seq (seq 0 3) (tasks (self s1)) (world s1)).2 = [0%nat].
Proof. intros S r s s1 m. split_and!; reflexivity. Qed.

(** ** parse *)

Section Parse.
Context {World : Type} `{StdSort World}.
Implicit Types s : State World.

Lemma parse_run (argv0 : string) (rest : list string) s :
  parse argv0 rest s =
  match for_each dispatch (tokens (self (expanded argv0 rest s))) (expanded argv0 rest s) with
  | (s4, Done _) =>
      (mkState (set_parsed true (set_tasks (std_sort (tasks (self s4))) (self s4)))
               (cout s4) (world s4),
       Done tt)
  | (s4, Error e) => (s4, Error e)
  | (s4, Fatal e) => (s4, Fatal e)
  | (s4, Undefined) => (s4, Undefined)
  end.
Proof.
  unfold parse. rewrite bind_run. simpl. rewrite bind_run. simpl.
  rewrite bind_run, parse_multi_spec. simpl.
  rewrite bind_run. simpl. rewrite bind_run.
  fold (expanded argv0 rest s).
  by destruct (for_each dispatch _ _) as [s4 [[]|e|e|]].
Qed.

(** [parse] ends normally or with the error of a [pack]; when it ends
    normally the tasks are sorted and the flag is set. *)
Lemma parse_cases (argv0 : string) (rest : list string) s :
  (exists s4 m,
     parse argv0 rest s = (s4, Error m) /\
     for_each dispatch (tokens (self (expanded argv0 rest s))) (expanded argv0 rest s)
       = (s4, Error m) /\
     extends (expanded argv0 rest s) s4) \/
  (exists s4,
     parse argv0 rest s =
       (mkState (set_parsed true (set_tasks (std_sort (tasks (self s4))) (self s4)))
                (cout s4) (world s4), Done tt) /\
     for_each dispatch (tokens (self (expanded argv0 rest s))) (expanded argv0 rest s)
       = (s4, Done tt) /\
     extends (expanded argv0 rest s) s4).
Proof.
  rewrite parse_run.
  destruct (for_each_dispatch_cases (tokens (self (expanded argv0 rest s)))
              (expanded argv0 rest s)) as [(s4 & m & Hs4 & He)|(s4 & Hs4 & He)];
    rewrite Hs4.
  - left. by exists s4, m.
  - right. by exists s4.
Qed.

(** C10: when [parse], entered with the [parsed] flag not set, ends with the
    error of a [pack], the flag is still not set, so that [run] fails
    fatally; the expanded tokens are stored; and the state is the one that
    the resolving loop had reached when it came to the failing token [t]:
    the tasks packed for the tokens before [t] are stored, unsorted, after
    the tasks there were. *)
Lemma C10_parse_error_not_atomic (argv0 : string) (rest : list string) s (m : string) :
  parsed (self s) = false ->
  (parse argv0 rest s).2 = Error m ->
  let s' := (parse argv0 rest s).1 in
  parsed (self s') = false /\
  run s' = (s', Fatal (ESC +:+ "[31mFATAL: " +:+ ESC +:+ "[0m" +:+ "Option has not parsed.")) /\
  tokens (self s') = tokens (self (expanded argv0 rest s)) /\
  (exists new, tasks (self s') = tasks (self s) ++ new) /\
  exists pre t post,
    tokens (self s') = pre ++ t :: post /\
    for_each dispatch pre (expanded argv0 rest s) = (s', Done tt) /\
    dispatch t s' = (s', Error m).
Proof.
  intros Hp Hparse s'. subst s'.
  destruct (parse_cases argv0 rest s) as [(s4 & m' & Hs4 & Hloop & He)|(s4 & Hs4 & _ & _)];
    rewrite Hs4 in *; [|done].
  simpl in *. injection Hparse as ->.
  destruct He as (Ht & _ & Hpar & _ & new & Hnew).
  assert (Hp' : parsed (self s4) = false) by (by rewrite Hpar).
  split_and!; [done | by apply run_unparsed | done | by exists new |].
  destruct (for_each_error _ _ _ _ _ Hloop) as (pre & t & post & s1 & Hl & Hpre & Hfail).
  assert (s1 = s4) as ->.
  { destruct (dispatch_cases t s1) as [[m1 Hm1]|(s2 & Hs2 & _)]; congruence. }
  exists pre, t, post. by rewrite Ht.
Qed.

End Parse.

(** ** The pipeline on concrete inputs *)

(** The example of the specification: "-abc" with "a", "b" and "c" registered
    becomes the tokens a, b, c without arguments, whatever the sort. *)
Example cluster_abc (S : StdSort Log) :
  let r := parse "prog" ["-abc"] (registered three_flags) in
  r.2 = Done tt /\
  tokens (self r.1) = [mkToken "prog" []; mkToken "a" []; mkToken "b" []; mkToken "c" []] /\
  cout r.1 = [] /\
  length (tasks (self r.1)) = 4%nat.
Proof.
  intros r. split_and!; [reflexivity | reflexivity | reflexivity |].
  change (tasks (self r.1)) with
    (std_sort [mkPacked (func Callback_default) [] (-1);
               mkPacked (say "a") [] (-1); mkPacked (say "b") [] (-1);
               mkPacked (say "c") [] (-1)]).
  by rewrite std_sort_length.
Qed.

(** With the insertion sort, the three actions run in the order of the input. *)
Example cluster_abc_runs :
  let S := insertion_StdSort in
  let r := (parse "prog" ["-abc"];; run) (registered three_flags) in
  r.2 = Done tt /\ world r.1 = ["a()"; "b()"; "c()"].
Proof. split; reflexivity. Qed.

(** C1, on the input on which the header departs from it: "-ba" comes right
    after the cluster "-ab". The loop of [parse_multi] expands "ab" and steps
    over "ba", which stays one token, is not resolved and is reported as
    unrecognized: [parse] packs three tasks (for "prog", "a" and "b"), not
    five. *)
Lemma C1_cluster_after_cluster_not_expanded (S : StdSort Log) :
  let r := parse "prog" ["-ab"; "-ba"] (registered two_flags) in
  is_multi (self (registered two_flags)) "ba" = true /\
  r.2 = Done tt /\
  tokens (self r.1) = [mkToken "prog" []; mkToken "a" []; mkToken "b" []; mkToken "ba" []] /\
  cout r.1 = [utils.warn "Unrecognized option 'ba'."] /\
  length (tasks (self r.1)) = 3%nat.
Proof.
  intros r. split_and!; [reflexivity | reflexivity | reflexivity | reflexivity |].
  change (tasks (self r.1)) with
    (std_sort [mkPacked (func Callback_default) [] (-1);
               mkPacked (say "a") [] (-1); mkPacked (say "b") [] (-1)]).
  by rewrite std_sort_length.
Qed.

(** With the insertion sort: "a" and "b" each run once, not twice. *)
Example cluster_after_cluster_runs :
  let S := insertion_StdSort in
  let r := (parse "prog" ["-ab"; "-ba"];; run) (registered two_flags) in
  r.2 = Done tt /\ world r.1 = ["a()"; "b()"].
Proof. split; reflexivity. Qed.

(** A cluster that does not follow a cluster is expanded: here "x" separates
    the two, as an unrecognized option. *)
Example cluster_after_other_token (S : StdSort Log) :
  let r := parse "prog" ["-ab"; "-x"; "-ba"] (registered two_flags) in
  tokens (self r.1) =
    [mkToken "prog" []; mkToken "a" []; mkToken "b" []; mkToken "x" [];
     mkToken "b" []; mkToken "a" []].
Proof. reflexivity. Qed.

(** C6, on the input on which the header departs from it: a command is
    registered under the name that [argv[0]] has. [funcs.insert] keeps the
    registered callback, the token of [argv[0]] resolves to it, and [run]
    calls the registered action, on the plain arguments that follow
    [argv[0]]. *)
Lemma C6_program_name_runs_registered_action (S : StdSort Log) :
  let s0 := registered (add_cmd "prog" (say "hit") (-1) (-1)) in
  let r := parse "prog" ["x"] s0 in
  r.2 = Done tt /\
  tokens (self r.1) = [mkToken "prog" ["x"]] /\
  tasks (self r.1) = [mkPacked (say "hit") ["x"] (-1)] /\
  world r.1 = [] /\
  (run r.1).2 = Done tt /\
  world (run r.1).1 = ["hit(x)"].
Proof.
  intros s0 r.
  assert (Ht : tasks (self r.1) = [mkPacked (say "hit") ["x"] (-1)]).
  { change (tasks (self r.1)) with (std_sort [mkPacked (say "hit") ["x"] (-1)]).
    apply std_sort_singleton. }
  assert (Hp : parsed (self r.1) = true) by reflexivity.
  split_and!; [reflexivity | reflexivity | exact Ht | reflexivity | |];
    rewrite run_parsed by exact Hp; rewrite Ht; reflexivity.
Qed.

(** When [argv[0]] is no registered name, its token resolves to the empty
    callback that [parse] inserts, and [run] changes nothing. *)
Example program_name_unregistered (S : StdSort Log) :
  let r := parse "prog" ["x"] fresh in
  r.2 = Done tt /\
  tasks (self r.1) = [mkPacked (func Callback_default) ["x"] (-1)] /\
  (run r.1).2 = Done tt /\
  world (run r.1).1 = [].
Proof.
  intros r.
  assert (Ht : tasks (self r.1) = [mkPacked (func Callback_default) ["x"] (-1)]).
  { change (tasks (self r.1)) with (std_sort [mkPacked (func Callback_default) ["x"] (-1)]).
    apply std_sort_singleton. }
  assert (Hp : parsed (self r.1) = true) by reflexivity.
  split_and!; [reflexivity | exact Ht | |];
    rewrite run_parsed by exact Hp; rewrite Ht; reflexivity.
Qed.

(** C10 on a value option that is given no value: the tokens and the two
    tasks packed before "n" are stored, the flag is not set. *)
Lemma C10_parse_error_not_atomic_witness :
  let S := insertion_StdSort in
  let s := registered flag_and_value in
  let m := ESC +:+ "[31mERROR: " +:+ ESC +:+ "[0m" +:+ "n: Too few arguments (0), expects 1" in
  let s' := (parse "prog" ["-o"; "-n"] s).1 in
  tokens (self s') = [mkToken "prog" []; mkToken "o" []; mkToken "n" []] /\
  tasks (self s') = [mkPacked (func Callback_default) [] (-1); mkPacked (say "o") [] (-1)] /\
  (parsed (self s') = false /\
   run s' = (s', Fatal (ESC +:+ "[31mFATAL: " +:+ ESC +:+ "[0m" +:+ "Option has not parsed.")) /\
   tokens (self s') = tokens (self (expanded "prog" ["-o"; "-n"] s)) /\
   (exists new, tasks (self s') = tasks (self s) ++ new) /\
   exists pre t post,
     tokens (self s') = pre ++ t :: post /\
     for_each dispatch pre (expanded "prog" ["-o"; "-n"] s) = (s', Done tt) /\
     dispatch t s' = (s', Error m)).
Proof.
  intros S s m s'.
  split; [reflexivity|]. split; [reflexivity|].
  apply (@C10_parse_error_not_atomic Log S "prog" ["-o"; "-n"] s m); reflexivity.
Defined.

(** C7 through the pipeline: the variable is 7 before [run]; the value "x"
    given to "n" makes [run] throw, and the variable is still 7. *)
Example value_binding_conversion_error :
  let S := insertion_StdSort in
  let r := (add_value "n" set_n default_restrictor;; parse "prog" ["-n"; "x"];; run)
             (mkState CLI_new [] 7) in
  r.2 = Error (ESC +:+ "[31mERROR: " +:+ ESC +:+ "[0m" +:+ "Unexpected conversion of 'x' to int.") /\
  world r.1 = 7.
Proof. split; reflexivity. Qed.

Example value_binding_assigns :
  let S := insertion_StdSort in
  let r := (add_value "n" set_n (range 0 50);; parse "prog" ["-n"; "42"];; run)
             (mkState CLI_new [] 7) in
  r.2 = Done tt /\ world r.1 = 42.
Proof. split; reflexivity. Qed.

(** * Further properties of the header *)

(** ** The tokenizing loop, argument by argument *)

(** The outer test of the loop of [parse]: the argument opens a token. *)
Definition opens_token (a : string) : bool :=
  Ascii.eqb (char_at a 0) "-" && negb (Nat.eqb (strlen a) 1).

(** The name of the token that an opening argument opens. *)
Definition token_name (a : string) : string :=
  if Ascii.eqb (char_at a 1) "-" && negb (Nat.eqb (strlen a) 2) then substr_from a 2
  else substr_from a 1.

Lemma tokenize_arg_cases (tokens : list Token) (a : string) :
  tokenize_arg tokens a =
  if opens_token a then tokens ++ [mkToken (token_name a) []] else back_add a tokens.
Proof.
  unfold tokenize_arg, opens_token, token_name.
  destruct (Ascii.eqb (char_at a 0) "-" && negb (Nat.eqb (strlen a) 1)); [|done].
  by destruct (Ascii.eqb (char_at a 1) "-" && negb (Nat.eqb (strlen a) 2)).
Qed.

Lemma back_add_snoc (a : string) (pre : list Token) (t : Token) :
  back_add a (pre ++ [t]) = pre ++ [Token_add a t].
Proof.
  unfold back_add. rewrite length_app. simpl.
  replace (Nat.pred (length pre + 1)) with (length pre + 0)%nat by lia.
  by rewrite alter_app_r.
Qed.

(** The loop only reads and writes the token that is open. *)
Lemma tokenize_loop_prefix (pre : list Token) (t : Token) (rest : list string) :
  foldl tokenize_arg (pre ++ [t]) rest = pre ++ foldl tokenize_arg [t] rest.
Proof.
  revert pre t. induction rest as [|a rest IH]; intros pre t; simpl; [done|].
  rewrite !tokenize_arg_cases.
  destruct (opens_token a).
  - rewrite (IH (pre ++ [t])), (IH [t]). by rewrite <- app_assoc.
  - rewrite back_add_snoc. change (back_add a [t]) with (back_add a ([] ++ [t])).
    rewrite back_add_snoc. simpl. apply IH.
Qed.

(** The loop from the open token [t]. *)
Lemma tokenize_loop (t : Token) (rest : list string) :
  map cmd (foldl tokenize_arg [t] rest) =
    cmd t :: map token_name (List.filter opens_token rest) /\
  concat (map args (foldl tokenize_arg [t] rest)) =
    args t ++ List.filter (fun a => negb (opens_token a)) rest.
Proof.
  revert t. induction rest as [|a rest IH]; intros t; simpl.
  - by rewrite !app_nil_r.
  - rewrite tokenize_arg_cases.
    destruct (opens_token a) eqn:Ha; simpl.
    + pose proof (tokenize_loop_prefix [t] (mkToken (token_name a) []) rest) as Hp.
      simpl in Hp. rewrite Hp.
      destruct (IH (mkToken (token_name a) [])) as [H1 H2].
      simpl. by rewrite H1, H2.
    + change (back_add a [t]) with (back_add a ([] ++ [t])).
      rewrite back_add_snoc. simpl.
      destruct (IH (Token_add a t)) as [H1 H2].
      rewrite H1, H2. simpl. by rewrite <- app_assoc.
Qed.

(** An opening argument never opens a token with an empty name: that is
    what the two tests on [strlen] are for. *)
Lemma token_name_nonempty (a : string) : opens_token a = true -> token_name a <> "".
Proof.
  unfold opens_token, token_name, strlen, char_at.
  destruct a as [|c1 [|c2 [|c3 r]]]; simpl.
  - done.
  - by rewrite andb_false_r.
  - intros _. rewrite andb_false_r. by rewrite substr_from_1.
  - intros _. rewrite andb_true_r.
    destruct (Ascii.eqb c2 "-"); [by rewrite substr_from_2 | by rewrite substr_from_1].
Qed.

(** X1: the tokenizer keeps the tokens of earlier calls in front and adds
    to them; the names of the new tokens are [argv[0]] and then the stripped
    opening arguments, in the order of the input; the arguments of the new
    tokens, read in order, are exactly the other arguments, in the order of
    the input: no argument is lost, repeated or moved. *)
Lemma X1_tokenize_structure (tokens : list Token) (argv0 : string) (rest : list string) :
  tokenize tokens argv0 rest = tokens ++ tokenize [] argv0 rest /\
  map cmd (tokenize [] argv0 rest) = argv0 :: map token_name (List.filter opens_token rest) /\
  concat (map args (tokenize [] argv0 rest)) =
    List.filter (fun a => negb (opens_token a)) rest.
Proof.
  unfold tokenize. simpl.
  destruct (tokenize_loop (mkToken argv0 []) rest) as [H1 H2].
  split_and!; [apply tokenize_loop_prefix | exact H1 | exact H2].
Qed.

(** X2: every token that the tokenizer opens for an argument has a name
    that is not empty, whatever the arguments are. *)
Lemma X2_opened_tokens_have_names (argv0 : string) (rest : list string) :
  Forall (fun t => cmd t <> "") (drop 1 (tokenize [] argv0 rest)).
Proof.
  unfold tokenize. simpl.
  destruct (tokenize_loop (mkToken argv0 []) rest) as [H1 _].
  destruct (foldl tokenize_arg [mkToken argv0 []] rest) as [|t0 new]; [done|].
  simpl in *. injection H1 as _ H1. rewrite drop_0.
  apply Forall_forall. intros t Ht.
  assert (Hc : cmd t ∈ map cmd new) by (apply list_elem_of_fmap; eauto).
  rewrite H1 in Hc. apply list_elem_of_fmap in Hc as (a & -> & Ha).
  apply list_elem_of_In, filter_In in Ha as [_ Ha]. by apply token_name_nonempty.
Qed.

(** ** Clusters *)

Section Clusters.
Context {World : Type}.
Implicit Types (s : State World) (c : CLI World).

Lemma is_multi_char c (ch : ascii) : is_multi c (string1 ch) = false.
Proof.
  unfold is_multi.
  destruct (found (funcs c) (string1 ch)) eqn:Hf; [done|].
  destruct (found (alias c) (string1 ch)) eqn:Ha; [done|].
  simpl. by rewrite Hf, Ha.
Qed.

(** No token of the stream is a cluster. *)
Definition no_cluster c : bool :=
  forallb (fun t => negb (is_multi c (cmd t))) (tokens c).

(** On tokens that are no clusters the loop of [parse_multi] only moves on:
    it never comes to the branch that inserts and erases. *)
Lemma parse_multi_loop_no_cluster (fuel : nat) (pre suf : list Token) s :
  tokens (self s) = pre ++ suf ->
  forallb (fun t => negb (is_multi (self s) (cmd t))) suf = true ->
  parse_multi_loop fuel (length pre) s = (s, Done tt).
Proof.
  revert pre suf. induction fuel as [|fuel IH]; intros pre suf Htok Hsuf; [done|].
  simpl. rewrite bind_run. simpl. rewrite Htok.
  destruct suf as [|t after].
  - rewrite app_nil_r. by rewrite lookup_ge_None_2 by lia.
  - rewrite list_lookup_middle by done. simpl in *.
    apply andb_true_iff in Hsuf as [Ht Hafter].
    apply negb_true_iff in Ht. rewrite Ht.
    replace (S (length pre)) with (length (pre ++ [t]))
      by (rewrite length_app; simpl; lia).
    apply (IH (pre ++ [t]) after); [by rewrite <- app_assoc | done].
Qed.

Lemma parse_multi_no_cluster s :
  no_cluster (self s) = true -> parse_multi s = (s, Done tt).
Proof.
  intros Hno. unfold parse_multi. rewrite bind_run. simpl.
  by apply (parse_multi_loop_no_cluster _ [] (tokens (self s))).
Qed.

(** X3: on a token stream that holds no cluster, [parse_multi] returns
    normally and leaves everything as it is: no token is inserted, erased or
    reordered, and nothing is printed. *)
Lemma X3_parse_multi_without_cluster s :
  no_cluster (self s) = true ->
  parse_multi s = (s, Done tt).
Proof. apply parse_multi_no_cluster. Qed.

(** X5: a name of one character is never a cluster; and when a name is a
    cluster, it is neither a primary name nor an alias, while each of its
    characters is one: the tokens that replace a cluster are never replaced
    again and are all resolved by the dispatcher. *)
Lemma X5_cluster_characters_are_names c :
  (forall ch : ascii, is_multi c (string1 ch) = false) /\
  (forall str : string,
     is_multi c str = true ->
     funcs c !! str = None /\ alias c !! str = None /\
     forall ch : ascii, ch ∈ chars str ->
       is_Some (funcs c !! string1 ch) \/ is_Some (alias c !! string1 ch)).
Proof.
  split; [apply is_multi_char|].
  intros str. unfold is_multi.
  destruct (found (funcs c) str) eqn:Hf; [done|].
  destruct (found (alias c) str) eqn:Ha; [done|]. simpl.
  intros Hall. split_and!; [by apply found_false | by apply found_false |].
  intros ch Hch. rewrite forallb_forall in Hall.
  specialize (Hall ch (proj1 (list_elem_of_In _ _) Hch)).
  rewrite <- !found_is_Some.
  destruct (found (funcs c) (string1 ch)); [by left|].
  destruct (found (alias c) (string1 ch)); [by right | done].
Qed.

End Clusters.

(** X3 on the tokens of "prog -a 1 -x": "a" is registered, "x" is not a
    name and not a cluster. *)
Lemma X3_parse_multi_without_cluster_witness :
  let s := mkState (mkCLI [mkToken "prog" []; mkToken "a" ["1"]; mkToken "x" []]
                          (alias (self (registered two_flags)))
                          (<["prog":=Callback_default]> (funcs (self (registered two_flags))))
                          [] false) [] ([] : Log) in
  parse_multi s = (s, Done tt).
Proof.
  intros s. apply (X3_parse_multi_without_cluster s). reflexivity.
Defined.

(** X5 on the cluster "ab" of the registry with "a" and "b". *)
Lemma X5_cluster_characters_are_names_witness :
  let c := self (registered two_flags) in
  funcs c !! "ab" = None /\ alias c !! "ab" = None /\
  forall ch : ascii, ch ∈ chars "ab" ->
    is_Some (funcs c !! string1 ch) \/ is_Some (alias c !! string1 ch).
Proof.
  intros c. apply (proj2 (X5_cluster_characters_are_names c) "ab"). reflexivity.
Defined.

(** ** The registry across the methods *)

Section Registry.
Context {World : Type}.
Implicit Types (s : State World) (c : CLI World) (r : Token) (cb : Callback World).

(** The message of the error that [pack] throws. *)
Definition too_few cb (arg : CmdArg) : string :=
  ESC +:+ "[31mERROR: " +:+ ESC +:+ "[0m" +:+
  name cb +:+ ": " +:+ "Too few arguments (" +:+ to_string (Z.of_nat (length arg)) +:+
  "), expects " +:+ to_string (expected_args cb).

(** A binding or an alias of [s] is still there, unchanged, in [s']. *)
Definition keeps_bindings s s' : Prop :=
  (forall k cb, funcs (self s) !! k = Some cb -> funcs (self s') !! k = Some cb) /\
  (forall k a, alias (self s) !! k = Some a -> alias (self s') !! k = Some a).

Lemma keeps_bindings_refl s : keeps_bindings s s.
Proof. by split. Qed.

Lemma keeps_bindings_trans s1 s2 s3 :
  keeps_bindings s1 s2 -> keeps_bindings s2 s3 -> keeps_bindings s1 s3.
Proof. intros [F1 A1] [F2 A2]. split; eauto. Qed.

(** [pack], in one equation. *)
Lemma pack_run cb (arg : CmdArg) s :
  pack cb arg s =
  if negb (expected_args cb =? -1) && (Z.of_nat (length arg) <? to_size_t (expected_args cb))
  then (s, Error (too_few cb arg))
  else
    (mkState (self s)
       (cout s ++
        if negb (expected_args cb =? -1) && (to_size_t (expected_args cb) <? Z.of_nat (length arg))
        then [utils.warn (name cb +:+ ": " +:+ "Expected " +:+ to_string (expected_args cb) +:+
                          " arguments, but " +:+ to_string (Z.of_nat (length arg)) +:+
                          " was given.")]
        else [])
       (world s),
     Done (mkPacked (func cb) arg (cb_priority cb))).
Proof.
  unfold pack. rewrite bind_run.
  destruct (negb (expected_args cb =? -1)); simpl.
  - rewrite bind_run.
    destruct (Z.of_nat (length arg) <? to_size_t (expected_args cb)); simpl; [done|].
    destruct (to_size_t (expected_args cb) <? Z.of_nat (length arg)); simpl; [done|].
    rewrite app_nil_r. by destruct s.
  - rewrite app_nil_r. by destruct s.
Qed.

(** What one turn of the resolving loop can do to the state. Only
    [funcs[alias[r.cmd]]] can write to [funcs], and only when the alias
    stands for no primary name. *)
Lemma dispatch_shape r s :
  exists (fs : gmap string (Callback World)) (new : list (Packed World))
         (out : list string) (o : outcome unit),
    dispatch r s =
      (mkState (mkCLI (tokens (self s)) (alias (self s)) fs (tasks (self s) ++ new)
                      (parsed (self s)))
               (cout s ++ out) (world s), o) /\
    (fs = funcs (self s) \/
     exists a, alias (self s) !! cmd r = Some a /\ funcs (self s) !! a = None /\
               fs = <[a:=Callback_default]> (funcs (self s))) /\
    (o = Done tt \/
     exists cb, o = Error (too_few cb (args r)) /\ new = [] /\ out = [] /\
                fs = funcs (self s) /\
                expected_args cb <> -1 /\
                Z.of_nat (length (args r)) < to_size_t (expected_args cb)).
Proof.
  assert (Hpack : forall cb,
    exists new out o,
      (pack cb (args r) ≫= push_task) s =
        (mkState (mkCLI (tokens (self s)) (alias (self s)) (funcs (self s))
                        (tasks (self s) ++ new) (parsed (self s)))
                 (cout s ++ out) (world s), o) /\
      (o = Done tt \/
       o = Error (too_few cb (args r)) /\ new = [] /\ out = [] /\
       expected_args cb <> -1 /\
       Z.of_nat (length (args r)) < to_size_t (expected_args cb))).
  { intros cb. rewrite bind_run, pack_run.
    destruct (negb (expected_args cb =? -1)) eqn:He; simpl.
    - destruct (Z.ltb_spec (Z.of_nat (length (args r))) (to_size_t (expected_args cb))).
      + exists [], [], (Error (too_few cb (args r))). split.
        * rewrite !app_nil_r. by destruct s as [[] ? ?].
        * right. split_and!; try done.
          apply negb_true_iff in He. by apply Z.eqb_neq in He.
      + eexists [_], _, (Done tt). split; [reflexivity | by left].
    - eexists [_], [], (Done tt). split; [|by left].
      unfold push_task, modify_self, set_tasks. simpl. by rewrite app_nil_r. }
  unfold dispatch. rewrite bind_run. simpl.
  destruct (found (funcs (self s)) (cmd r)) eqn:Hf.
  - rewrite bind_run, funcs_at_run.
    unfold found in Hf. destruct (funcs (self s) !! cmd r) as [cb|]; [|done].
    destruct (Hpack cb) as (new & out & o & Hrun & Ho).
    exists (funcs (self s)), new, out, o. split_and!; [exact Hrun | by left |].
    destruct Ho as [->|(-> & -> & -> & He & Hlt)]; [by left|].
    right. exists cb. by split_and!.
  - destruct (found (alias (self s)) (cmd r)) eqn:Ha.
    + rewrite bind_run. unfold alias_at. rewrite bind_run. simpl.
      unfold found in Ha. destruct (alias (self s) !! cmd r) as [a|] eqn:Hal; [|done].
      simpl. rewrite bind_run, funcs_at_run.
      destruct (funcs (self s) !! a) as [cb|] eqn:Hfa.
      * destruct (Hpack cb) as (new & out & o & Hrun & Ho).
        exists (funcs (self s)), new, out, o. split_and!; [exact Hrun | by left |].
        destruct Ho as [->|(-> & -> & -> & He & Hlt)]; [by left|].
        right. exists cb. by split_and!.
      * eexists (<[a:=Callback_default]> (funcs (self s))), [_], [], (Done tt).
        split_and!; [|right; by exists a|by left].
        simpl. rewrite bind_run. simpl. by rewrite app_nil_r.
    + rewrite bind_run. unfold warn at 1. rewrite for_each_warn. simpl.
      eexists (funcs (self s)), [], _, (Done tt).
      split_and!; [|by left|by left].
      rewrite app_nil_r, <- app_assoc. simpl. by destruct s as [[] ? ?].
Qed.

End Registry.

Section RegistryLoop.
Context {World : Type}.
Implicit Types (s : State World) (c : CLI World) (r : Token) (cb : Callback World).

(** Every entry of [m] is in [m'], unchanged. *)
Definition map_grows {V : Type} (m m' : gmap string V) : Prop :=
  forall k v, m !! k = Some v -> m' !! k = Some v.

Lemma map_grows_refl {V : Type} (m : gmap string V) : map_grows m m.
Proof. by intros k v Hk. Qed.

Lemma map_grows_insert {V : Type} (m : gmap string V) (k : string) (v : V) :
  m !! k = None -> map_grows m (<[k:=v]> m).
Proof.
  intros Hk k' v' Hk'. rewrite lookup_insert_ne by congruence. done.
Qed.

Lemma map_grows_map_insert {V : Type} (m : gmap string V) (k : string) (v : V) :
  map_grows m (map_insert k v m).
Proof.
  unfold map_insert. destruct (m !! k) eqn:Hk; [apply map_grows_refl|]. by apply map_grows_insert.
Qed.

(** The error of a [pack] on one of the tokens [l]. *)
Definition arity_error (l : list Token) (o : outcome unit) : Prop :=
  exists cb r, r ∈ l /\ o = Error (too_few cb (args r)) /\
               expected_args cb <> -1 /\
               Z.of_nat (length (args r)) < to_size_t (expected_args cb).

(** What the resolving loop can do to the state. *)
Lemma resolve_shape (l : list Token) s :
  exists (fs : gmap string (Callback World)) (new : list (Packed World))
         (out : list string) (o : outcome unit),
    for_each dispatch l s =
      (mkState (mkCLI (tokens (self s)) (alias (self s)) fs (tasks (self s) ++ new)
                      (parsed (self s)))
               (cout s ++ out) (world s), o) /\
    map_grows (funcs (self s)) fs /\
    (alias_closed (self s) -> fs = funcs (self s)) /\
    (o = Done tt \/ arity_error l o).
Proof.
  revert s. induction l as [|r l IH]; intros s.
  - exists (funcs (self s)), [], [], (Done tt). simpl.
    rewrite !app_nil_r. split_and!; [by destruct s as [[] ? ?] | apply map_grows_refl | done | by left].
  - simpl. rewrite bind_run.
    destruct (dispatch_shape r s) as (fs1 & new1 & out1 & o1 & Hrun & Hfs1 & Ho1).
    rewrite Hrun.
    assert (Hg1 : map_grows (funcs (self s)) fs1).
    { destruct Hfs1 as [->|(a & _ & Hn & ->)]; [apply map_grows_refl | by apply map_grows_insert]. }
    assert (Hc1 : alias_closed (self s) -> fs1 = funcs (self s)).
    { intros Hcl. destruct Hfs1 as [->|(a & Ha & Hn & ->)]; [done|].
      destruct (Hcl _ _ Ha) as [cb Hcb]. congruence. }
    destruct Ho1 as [->|(cb & -> & -> & -> & -> & He & Hlt)].
    + set (s1 := mkState _ _ _).
      destruct (IH s1) as (fs & new & out & o & Hloop & Hg & Hc & Ho).
      rewrite Hloop. subst s1. simpl in *.
      exists fs, (new1 ++ new), (out1 ++ out), o.
      rewrite <- !app_assoc. split_and!; [done | | |].
      * intros k v Hk. by apply Hg, Hg1.
      * intros Hcl. rewrite <- (Hc1 Hcl). apply Hc.
        intros k a Ha. simpl in *. rewrite (Hc1 Hcl). exact (Hcl k a Ha).
      * destruct Ho as [->|(cb & r' & Hr' & -> & He & Hlt)]; [by left|].
        right. exists cb, r'. split_and!; try done. by apply elem_of_cons; right.
    + exists (funcs (self s)), [], [], (Error (too_few cb (args r))).
      split_and!; [done | apply map_grows_refl | done |].
      right. exists cb, r. split_and!; try done. by apply elem_of_cons; left.
Qed.

End RegistryLoop.

Arguments arity_error : clear implicits.

Definition is_done {A : Type} (o : outcome A) : bool :=
  match o with
  | Done _ => true
  | _ => false
  end.

Section RegistryParse.
Context {World : Type} `{StdSort World}.
Implicit Types (s : State World) (c : CLI World) (r : Token) (cb : Callback World).

Lemma map_insert_is_Some {V : Type} (m : gmap string V) (k : string) (v : V) :
  is_Some (map_insert k v m !! k).
Proof.
  unfold map_insert. destruct (m !! k) eqn:Hk; [by rewrite Hk|].
  rewrite lookup_insert_eq. by eexists.
Qed.

(** What [parse] can do to the state. *)
Lemma parse_shape (argv0 : string) (rest : list string) s :
  exists (fs : gmap string (Callback World)) (new : list (Packed World))
         (out : list string) (o : outcome unit),
    parse argv0 rest s =
      (mkState (mkCLI (tokens (self (expanded argv0 rest s))) (alias (self s)) fs
                      (if is_done o then std_sort (tasks (self s) ++ new)
                       else tasks (self s) ++ new)
                      (if is_done o then true else parsed (self s)))
               (cout s ++ out) (world s), o) /\
    map_grows (map_insert argv0 Callback_default (funcs (self s))) fs /\
    (alias_closed (self s) -> fs = map_insert argv0 Callback_default (funcs (self s))) /\
    (o = Done tt \/ arity_error World (tokens (self (expanded argv0 rest s))) o).
Proof.
  rewrite parse_run.
  destruct (resolve_shape (tokens (self (expanded argv0 rest s))) (expanded argv0 rest s))
    as (fs & new & out & o & Hloop & Hg & Hc & Ho).
  rewrite Hloop. simpl in *.
  assert (Hc' : alias_closed (self s) ->
                fs = map_insert argv0 Callback_default (funcs (self s))).
  { intros Hcl. apply Hc. intros k a Ha. simpl in *.
    destruct (Hcl k a Ha) as [cb Hcb]. exists cb. by apply map_grows_map_insert. }
  destruct Ho as [->|Herr].
  - eexists fs, new, _, (Done tt). simpl.
    split_and!; [rewrite <- app_assoc; reflexivity | done | done | by left].
  - destruct Herr as (cb & r & Hr & -> & He & Hlt).
    eexists fs, new, _, (Error (too_few cb (args r))). simpl.
    split_and!; [rewrite <- app_assoc; reflexivity | done | done |].
    right. by exists cb, r.
Qed.

Lemma add_value_state {T : Type} `{StrTo T} name (value : T -> World -> World) rs s :
  (add_value name value rs s).1 = (add_cmd name (value_action value rs) 1 (-1) s).1.
Proof.
  unfold add_value. rewrite bind_run. simpl. rewrite bind_run. simpl.
  destruct (parsed (self s)) eqn:Hp; simpl; [|done].
  by rewrite add_cmd_run, Hp.
Qed.

Lemma add_option_state name option s :
  (add_option name option s).1 = (add_cmd name (option_action option) 0 (-1) s).1.
Proof.
  unfold add_option. rewrite bind_run. simpl. rewrite bind_run. simpl.
  destruct (parsed (self s)) eqn:Hp; simpl; [|done].
  by rewrite add_cmd_run, Hp.
Qed.

Lemma add_cmd_keeps cmd f e p s : keeps_bindings s (add_cmd cmd f e p s).1.
Proof.
  rewrite add_cmd_run.
  destruct (parsed (self s)); [apply keeps_bindings_refl|].
  destruct (found (funcs (self s)) cmd) eqn:Hf; [apply keeps_bindings_refl|].
  split; [|done]. simpl. apply map_grows_insert. by apply found_false.
Qed.

Lemma add_cmd_alias_keeps cmd alia f e p s : keeps_bindings s (add_cmd_alias cmd alia f e p s).1.
Proof.
  rewrite add_cmd_alias_run.
  destruct (parsed (self s)); [apply keeps_bindings_refl|].
  destruct (found (funcs (self s)) cmd) eqn:Hf; [apply keeps_bindings_refl|].
  destruct (found (alias (self s)) alia) eqn:Ha; [apply keeps_bindings_refl|].
  split; simpl; apply map_grows_insert; by apply found_false.
Qed.

Lemma run_registry s :
  funcs (self (run s).1) = funcs (self s) /\ alias (self (run s).1) = alias (self s).
Proof.
  destruct (parsed (self s)) eqn:Hp.
  - by rewrite run_parsed.
  - by rewrite run_unparsed.
Qed.

(** X7: no method replaces or removes a binding or an alias: what [funcs]
    and [alias] hold before a call to a registration method, to [parse] or
    to [run], they hold after it, with the same callback and the same
    primary name, whether the call returns or throws. *)
Lemma X7_bindings_are_never_replaced s :
  (forall cmd f e p, keeps_bindings s (add_cmd cmd f e p s).1) /\
  (forall cmd alia f e p, keeps_bindings s (add_cmd_alias cmd alia f e p s).1) /\
  (forall (T : Type) (conv : StrTo T) name (value : T -> World -> World) rs,
     keeps_bindings s (add_value name value rs s).1) /\
  (forall name option, keeps_bindings s (add_option name option s).1) /\
  (forall argv0 rest, keeps_bindings s (parse argv0 rest s).1) /\
  keeps_bindings s (run s).1.
Proof.
  split_and!.
  - intros. apply add_cmd_keeps.
  - intros. apply add_cmd_alias_keeps.
  - intros. rewrite add_value_state. apply add_cmd_keeps.
  - intros. rewrite add_option_state. apply add_cmd_keeps.
  - intros argv0 rest.
    destruct (parse_shape argv0 rest s) as (fs & new & out & o & -> & Hg & _ & _).
    split; simpl; [|done].
    intros k cb Hk. by apply Hg, map_grows_map_insert.
  - destruct (run_registry s) as [Hf Ha]. split; intros k v; by rewrite ?Hf, ?Ha.
Qed.

(** X8: the methods keep the registry closed under aliases: when every
    alias stands for a primary name before a call to [add_cmd], to the
    [add_cmd] with an alias, to [parse] or to [run], it is so after the call.
    On such a registry [parse] adds to [funcs] the entry of [argv[0]] and
    nothing else. *)
Lemma X8_aliases_stay_closed s :
  alias_closed (self s) ->
  (forall cmd f e p, alias_closed (self (add_cmd cmd f e p s).1)) /\
  (forall cmd alia f e p, alias_closed (self (add_cmd_alias cmd alia f e p s).1)) /\
  (forall argv0 rest,
     alias_closed (self (parse argv0 rest s).1) /\
     funcs (self (parse argv0 rest s).1) = map_insert argv0 Callback_default (funcs (self s))) /\
  alias_closed (self (run s).1).
Proof.
  intros Hcl. split_and!.
  - intros cmd f e p k a Ha.
    destruct (add_cmd_keeps cmd f e p s) as [Hg _].
    assert (Ha' : alias (self s) !! k = Some a).
    { revert Ha. rewrite add_cmd_run.
      destruct (parsed (self s)); [done|].
      by destruct (found (funcs (self s)) cmd). }
    destruct (Hcl k a Ha') as [cb Hcb]. exists cb. by apply Hg.
  - intros cmd alia f e p k a. rewrite add_cmd_alias_run.
    destruct (parsed (self s)); [apply Hcl|].
    destruct (found (funcs (self s)) cmd) eqn:Hf; [apply Hcl|].
    destruct (found (alias (self s)) alia) eqn:Hal; [apply Hcl|]. simpl.
    intros Ha. destruct (decide (alia = k)) as [->|Hne].
    + rewrite lookup_insert_eq in Ha. injection Ha as <-.
      rewrite lookup_insert_eq. by eexists.
    + rewrite lookup_insert_ne in Ha by done.
      destruct (Hcl k a Ha) as [cb Hcb]. exists cb.
      apply map_grows_insert; [by apply found_false | done].
  - intros argv0 rest.
    destruct (parse_shape argv0 rest s) as (fs & new & out & o & -> & Hg & Hc & _).
    simpl. rewrite (Hc Hcl). split; [|done].
    intros k a Ha. destruct (Hcl k a Ha) as [cb Hcb]. exists cb.
    by apply map_grows_map_insert.
  - destruct (run_registry s) as [Hf Ha]. intros k a. rewrite Hf, Ha. apply Hcl.
Qed.

(** The CLI as the tokenizing part of [parse] leaves it: the arguments are
    tokenized after the tokens there were, and [argv[0]] is in [funcs]. *)
Definition tokenized (argv0 : string) (rest : list string) (c : CLI World) : CLI World :=
  set_funcs (map_insert argv0 Callback_default (funcs c))
            (set_tokens (tokenize (tokens c) argv0 rest) c).

(** X10: when none of the tokens is a cluster, [parse] never fails fatally:
    it returns normally or throws the too-few-arguments error of [pack], for
    one of the tokens it has stored and a callback that expects more
    arguments than the token has. In particular no conversion and no
    restrictor runs in [parse]. *)
Lemma X10_parse_throws_only_arity_errors (argv0 : string) (rest : list string) s :
  no_cluster (tokenized argv0 rest (self s)) = true ->
  (parse argv0 rest s).2 = Done tt \/
  arity_error World (tokens (self (parse argv0 rest s).1)) (parse argv0 rest s).2.
Proof.
  intros Hno. unfold parse. rewrite bind_run. simpl. rewrite bind_run. simpl.
  rewrite bind_run.
  match goal with
  | |- context [parse_multi ?st] => rewrite (parse_multi_no_cluster st) by exact Hno
  end.
  rewrite bind_run. simpl. rewrite bind_run.
  match goal with
  | |- context [for_each dispatch ?l ?st] =>
      destruct (resolve_shape l st) as (fs & new & out & o & Hloop & _ & _ & Ho)
  end.
  rewrite Hloop.
  destruct Ho as [->|Herr]; [by left|].
  right. destruct Herr as (cb & r & Hr & -> & He & Hlt). simpl.
  exists cb, r. by split_and!.
Qed.

(** X11: [parse] calls no action and forgets nothing: it leaves the world
    and the aliases as they were, only adds lines to the output, keeps every
    task there was (in some order, with the new ones), and sets the [parsed]
    flag exactly when it returns normally. *)
Lemma X11_parse_frame (argv0 : string) (rest : list string) s :
  world (parse argv0 rest s).1 = world s /\
  alias (self (parse argv0 rest s).1) = alias (self s) /\
  (exists out, cout (parse argv0 rest s).1 = cout s ++ out) /\
  (exists new, tasks (self (parse argv0 rest s).1) ≡ₚ tasks (self s) ++ new) /\
  parsed (self (parse argv0 rest s).1) = parsed (self s) || is_done (parse argv0 rest s).2.
Proof.
  destruct (parse_shape argv0 rest s) as (fs & new & out & o & -> & _ & _ & _).
  simpl. split_and!; [done | done | by exists out | exists new |].
  - destruct (is_done o); [apply std_sort_perm | done].
  - destruct (is_done o); [by rewrite orb_true_r | by rewrite orb_false_r].
Qed.

(** X15: whatever [parse] does, it leaves [argv[0]] registered as a primary
    name, also when it throws: a command of that name can no longer be
    registered. *)
Lemma X15_parse_registers_program_name (argv0 : string) (rest : list string) s f e p :
  is_Some (funcs (self (parse argv0 rest s).1) !! argv0) /\
  is_fatal (add_cmd argv0 f e p (parse argv0 rest s).1).2.
Proof.
  assert (Hs : is_Some (funcs (self (parse argv0 rest s).1) !! argv0)).
  { destruct (parse_shape argv0 rest s) as (fs & new & out & o & -> & Hg & _ & _).
    simpl. destruct (map_insert_is_Some (funcs (self s)) argv0 Callback_default) as [cb Hcb].
    exists cb. by apply Hg. }
  split; [done|]. apply add_cmd_fatal. by right.
Qed.

End RegistryParse.

(** ** Arguments before the first option *)

Lemma tokenize_plain (t : Token) (rest : list string) :
  Forall (fun a => opens_token a = false) rest ->
  foldl tokenize_arg [t] rest = [mkToken (cmd t) (args t ++ rest)].
Proof.
  revert t. induction rest as [|a rest IH]; intros t Hrest; simpl.
  - rewrite app_nil_r. by destruct t.
  - apply Forall_cons in Hrest as [Ha Hrest].
    rewrite tokenize_arg_cases, Ha.
    change (back_add a [t]) with (back_add a ([] ++ [t])).
    rewrite back_add_snoc. simpl. rewrite (IH _ Hrest). simpl.
    by rewrite <- app_assoc.
Qed.

Section Leading.
Context {World : Type} `{StdSort World}.
Implicit Types (s : State World).

Lemma is_multi_found (c : CLI World) (str : string) :
  is_Some (funcs c !! str) -> is_multi c str = false.
Proof.
  intros Hf. apply found_is_Some in Hf. unfold is_multi. by rewrite Hf.
Qed.

(** X6: when the arguments hold no option at all and [argv[0]] is not a
    registered name, [parse] on a CLI without tokens returns normally and
    prints nothing: all the arguments go to the token of [argv[0]], which
    resolves to the empty callback, so that they are bound to an action that
    does nothing. Arguments that stand before the first option are dropped
    without a warning. *)
Lemma X6_leading_arguments_are_dropped_silently (argv0 : string) (rest : list string) s :
  tokens (self s) = [] ->
  funcs (self s) !! argv0 = None ->
  Forall (fun a => opens_token a = false) rest ->
  parse argv0 rest s =
    (mkState (mkCLI [mkToken argv0 rest] (alias (self s))
                    (<[argv0:=Callback_default]> (funcs (self s)))
                    (std_sort (tasks (self s) ++ [mkPacked (func Callback_default) rest (-1)]))
                    true)
             (cout s) (world s),
     Done tt) /\
  forall w : World,
    call (mkPacked (func Callback_default) rest (-1)) w =
    (mkPacked (func Callback_default) rest (-1), w, Done tt).
Proof.
  intros Htok Hf Hrest. split; [|done].
  rewrite parse_run. unfold expanded. rewrite Htok. unfold tokenize. simpl.
  rewrite (tokenize_plain _ _ Hrest). simpl.
  unfold map_insert. rewrite Hf.
  rewrite is_multi_found by (simpl; rewrite lookup_insert_eq; by eexists).
  simpl. rewrite bind_run.
  rewrite (dispatch_primary _ _ Callback_default) by (simpl; apply lookup_insert_eq).
  rewrite bind_run, pack_run. simpl.
  by rewrite !app_nil_r.
Qed.

End Leading.

(** X6 on three plain arguments, the bare dash among them. *)
Lemma X6_leading_arguments_witness :
  let S := insertion_StdSort in
  let r := parse "prog" ["in.txt"; "-"; "out.txt"] (registered two_flags) in
  r.2 = Done tt /\
  tokens (self r.1) = [mkToken "prog" ["in.txt"; "-"; "out.txt"]] /\
  cout r.1 = [] /\
  world (run r.1).1 = [].
Proof.
  intros S r.
  destruct (@X6_leading_arguments_are_dropped_silently Log S
              "prog" ["in.txt"; "-"; "out.txt"] (registered two_flags)) as [Hparse _].
  - reflexivity.
  - reflexivity.
  - repeat constructor.
  - unfold r. rewrite Hparse. split_and!; reflexivity.
Defined.

(** ** Resolution, arity and restrictors *)

Section Resolution.
Context {World : Type}.
Implicit Types (s : State World) (r : Token) (cb : Callback World).

(** The state after the task that [pack] makes of [cb] and the arguments of
    [r] is pushed, with the lines [out] printed. *)
Definition pushed s cb r (out : list string) : State World :=
  mkState (set_tasks (tasks (self s) ++ [mkPacked (func cb) (args r) (cb_priority cb)]) (self s))
          (cout s ++ out) (world s).

(** X9: how a token is resolved. A token whose name is a primary name gets
    the callback of that name, also when the name is an alias as well; a
    token whose name is only an alias gets the callback of the primary name
    the alias stands for; in both cases, unless [pack] throws, one task with
    the arguments of the token and the priority of the callback is added at
    the end of [tasks]. A token whose name is neither is dropped: no task is
    added, and one warning is printed for the token and one for each of its
    arguments, in order. *)
Lemma X9_dispatch_resolution r s :
  (forall cb, funcs (self s) !! cmd r = Some cb ->
     dispatch r s = (s, Error (too_few cb (args r))) \/
     exists out, dispatch r s = (pushed s cb r out, Done tt)) /\
  (forall a cb,
     funcs (self s) !! cmd r = None -> alias (self s) !! cmd r = Some a ->
     funcs (self s) !! a = Some cb ->
     dispatch r s = (s, Error (too_few cb (args r))) \/
     exists out, dispatch r s = (pushed s cb r out, Done tt)) /\
  (funcs (self s) !! cmd r = None -> alias (self s) !! cmd r = None ->
   dispatch r s =
     (mkState (self s)
        (cout s ++ utils.warn ("Unrecognized option '" +:+ cmd r +:+ "'.") ::
           map (fun a => utils.warn ("Discarded arguments '" +:+ a +:+ "'")) (args r))
        (world s),
      Done tt)).
Proof.
  assert (Hpack : forall cb,
    (pack cb (args r) ≫= push_task) s = (s, Error (too_few cb (args r))) \/
    exists out, (pack cb (args r) ≫= push_task) s = (pushed s cb r out, Done tt)).
  { intros cb. rewrite bind_run, pack_run.
    destruct (negb (expected_args cb =? -1) &&
              (Z.of_nat (length (args r)) <? to_size_t (expected_args cb))); [by left|].
    right. eexists. reflexivity. }
  split_and!.
  - intros cb Hf. rewrite (dispatch_primary r s cb Hf). apply Hpack.
  - intros a cb Hf Ha Hcb. rewrite (dispatch_alias r s a cb Hf Ha Hcb). apply Hpack.
  - apply dispatch_unrecognized.
Qed.

(** X12: an [expected_args] below -1 is taken for a count and, converted to
    [std::size_t], exceeds the size of the argument vector: [pack] throws
    the too-few-arguments error whatever the arguments are. *)
Lemma X12_negative_arity_always_throws cb (arg : CmdArg) s :
  utils.INT_MIN <= expected_args cb < -1 ->
  Z.of_nat (length arg) < 2 ^ 63 ->
  pack cb arg s = (s, Error (too_few cb arg)).
Proof. intros He Hlen. by apply pack_negative_arity. Qed.

(** X13: an [int] value binding with a restrictor, called on an argument
    that [std::stoi] converts to [v]. With [range(lo, hi)] it assigns [v]
    exactly when [lo <= v < hi]: the lower bound is accepted, the upper
    bound is not. With [oneof] over a container it assigns [v] exactly when
    [v] is one of the values that the container holds. Otherwise it throws
    the invalid-value error, which holds the raw argument, and assigns
    nothing. *)
Lemma X13_restricted_value_binding
    (value : Z -> World -> World) (a0 : string) (rest : CmdArg) (prio : Z) (w : World) (v : Z) :
  utils.stoi a0 = Some v ->
  (forall lo hi : Z,
     call (mkPacked (value_action value (range lo hi)) (a0 :: rest) prio) w =
     if decide (lo <= v < hi)
     then (mkPacked (value_action value (range lo hi)) (a0 :: rest) prio, value v w, Done tt)
     else (mkPacked (value_action value (range lo hi)) (a0 :: rest) prio, w,
           Error (ESC +:+ "[31mERROR: " +:+ ESC +:+ "[0m" +:+ "Invaild value '" +:+ a0 +:+ "'"))) /\
  (forall l : list Z,
     call (mkPacked (value_action value (oneof l)) (a0 :: rest) prio) w =
     if decide (v ∈ l)
     then (mkPacked (value_action value (oneof l)) (a0 :: rest) prio, value v w, Done tt)
     else (mkPacked (value_action value (oneof l)) (a0 :: rest) prio, w,
           Error (ESC +:+ "[31mERROR: " +:+ ESC +:+ "[0m" +:+ "Invaild value '" +:+ a0 +:+ "'"))).
Proof.
  intros Hv. split.
  - intros lo hi. unfold call, value_action, str_to, str_to_int_inst, utils.str_to_int.
    simpl. rewrite Hv.
    destruct (range lo hi v) eqn:Hr; simpl.
    + apply range_spec in Hr. by rewrite decide_True.
    + rewrite decide_False; [done|]. intros Hin. apply range_spec in Hin. congruence.
  - intros l. unfold call, value_action, str_to, str_to_int_inst, utils.str_to_int.
    simpl. rewrite Hv.
    destruct (oneof l v) eqn:Hr; simpl.
    + apply oneof_spec in Hr. by rewrite decide_True.
    + rewrite decide_False; [done|]. intros Hin. apply oneof_spec in Hin. congruence.
Qed.

End Resolution.

(** X9 on a registry in which "x" is a primary name and also an alias of
    "y": the token "x" gets the callback of "x"; "q" is no name at all. *)
Lemma X9_dispatch_resolution_witness :
  let s := ((add_cmd_alias "y" "x" (say "y") (-1) (-1);; add_cmd "x" (say "x") (-1) (-1)) fresh).1 in
  alias (self s) !! "x" = Some "y" /\
  (dispatch (mkToken "x" ["1"]) s = (s, Error (too_few (mkCallback "x" (say "x") (-1) (-1)) ["1"])) \/
   exists out, dispatch (mkToken "x" ["1"]) s =
     (pushed s (mkCallback "x" (say "x") (-1) (-1)) (mkToken "x" ["1"]) out, Done tt)) /\
  dispatch (mkToken "q" ["1"]) s =
    (mkState (self s)
       [utils.warn "Unrecognized option 'q'."; utils.warn "Discarded arguments '1'"] [],
     Done tt).
Proof.
  intros s. split; [reflexivity|]. split.
  - apply (proj1 (X9_dispatch_resolution (mkToken "x" ["1"]) s)). reflexivity.
  - apply (proj2 (proj2 (X9_dispatch_resolution (mkToken "q" ["1"]) s))); reflexivity.
Defined.

(** X12 on a callback registered with [expected_args = -2]. *)
Lemma X12_negative_arity_witness :
  pack (mkCallback "n" (say "n") (-2) (-1)) ["1"; "2"; "3"] fresh =
  (fresh, Error (ESC +:+ "[31mERROR: " +:+ ESC +:+ "[0m" +:+ "n: Too few arguments (3), expects -2")).
Proof.
  apply (X12_negative_arity_always_throws (mkCallback "n" (say "n") (-2) (-1)) ["1"; "2"; "3"] fresh).
  - unfold utils.INT_MIN. simpl. lia.
  - simpl. lia.
Defined.

(** X13 on [range(0, 5)] and on [oneof] over the vector 1, 3, 5, at the
    value 5. *)
Lemma X13_restricted_value_witness :
  call (mkPacked (value_action set_n (range 0 5)) ["5"] (-1)) 7 =
    (mkPacked (value_action set_n (range 0 5)) ["5"] (-1), 7,
     Error (ESC +:+ "[31mERROR: " +:+ ESC +:+ "[0m" +:+ "Invaild value '5'")) /\
  call (mkPacked (value_action set_n (oneof [1; 3; 5])) ["5"] (-1)) 7 =
    (mkPacked (value_action set_n (oneof [1; 3; 5])) ["5"] (-1), 5, Done tt).
Proof.
  pose proof (X13_restricted_value_binding set_n "5" [] (-1) 7 5 eq_refl) as [Hrange Honeof].
  split.
  - apply (Hrange 0 5).
  - apply (Honeof [1; 3; 5]).
Defined.

(** X10 on a value option that is given no value: none of the tokens
    "prog", "o", "n" is a cluster, and [parse] throws the error of [pack]. *)
Lemma X10_parse_throws_only_arity_errors_witness :
  let S := insertion_StdSort in
  let r := parse "prog" ["-o"; "-n"] (registered flag_and_value) in
  r.2 = Error (ESC +:+ "[31mERROR: " +:+ ESC +:+ "[0m" +:+ "n: Too few arguments (0), expects 1") /\
  (r.2 = Done tt \/ arity_error Log (tokens (self r.1)) r.2).
Proof.
  intros S r. split; [reflexivity|].
  apply (@X10_parse_throws_only_arity_errors Log S "prog" ["-o"; "-n"] (registered flag_and_value)).
  reflexivity.
Defined.

(** X8 from the new CLI, which has no alias, through the registration of a
    command with an alias and a [parse]. *)
Lemma X8_aliases_stay_closed_witness :
  let S := insertion_StdSort in
  let s1 := (add_cmd_alias "p" "print" (say "p") (-1) (-1) fresh).1 in
  alias (self s1) !! "print" = Some "p" /\
  alias_closed (self s1) /\
  alias_closed (self (parse "prog" ["--print"; "x"] s1).1) /\
  funcs (self (parse "prog" ["--print"; "x"] s1).1) =
    map_insert "prog" Callback_default (funcs (self s1)).
Proof.
  intros S s1.
  assert (H0 : alias_closed (self fresh)).
  { intros k a Ha. change (alias (self fresh) !! k) with (@lookup _ _ (gmap string string) _ k ∅) in Ha.
    by rewrite lookup_empty in Ha. }
  assert (H1 : alias_closed (self s1))
    by apply (proj1 (proj2 (X8_aliases_stay_closed fresh H0)) "p" "print" (say "p") (-1) (-1)).
  split; [reflexivity|]. split; [exact H1|].
  apply (proj1 (proj2 (proj2 (@X8_aliases_stay_closed Log S s1 H1))) "prog" ["--print"; "x"]).
Defined.

(** ** A registered command, from the command line to its action *)

Section EndToEnd.
Context {World : Type} `{StdSort World}.
Implicit Types (s : State World).




End EndToEnd.

Section TooFewValues.
Context {World : Type} `{StdSort World}.
Implicit Types (s : State World).


End TooFewValues.



(** ** Aliases, and the tokens of earlier calls *)

(** The name of the token is a primary name or an alias of the CLI. *)
Definition resolves {World : Type} (c : CLI World) (t : Token) : bool :=
  found (funcs c) (cmd t) || found (alias c) (cmd t).

Section Aliases.
Context {World : Type}.
Implicit Types (s : State World) (r : Token) (cb : Callback World).

(** X17: after a command is registered with an alias on an unparsed CLI, a
    token named by the alias is resolved exactly as a token named by the
    primary name with the same arguments, provided the alias is not itself a
    primary name. When the alias is already a primary name the registration
    succeeds all the same, and the alias is dead: the token gets the
    callback of that primary name. *)
Lemma X17_alias_resolves_like_primary
    (cmd alia : string) (f : @Cmd World) (e p : Z) (args : list string) s :
  parsed (self s) = false ->
  funcs (self s) !! cmd = None ->
  alias (self s) !! alia = None ->
  alia <> cmd ->
  (add_cmd_alias cmd alia f e p s).2 = Done tt /\
  (funcs (self s) !! alia = None ->
   dispatch (mkToken alia args) (add_cmd_alias cmd alia f e p s).1 =
   dispatch (mkToken cmd args) (add_cmd_alias cmd alia f e p s).1) /\
  (forall cb, funcs (self s) !! alia = Some cb ->
   dispatch (mkToken alia args) (add_cmd_alias cmd alia f e p s).1 =
   (pack cb args ≫= push_task) (add_cmd_alias cmd alia f e p s).1).
Proof.
  intros Hp Hf Ha Hne. rewrite add_cmd_alias_run, Hp.
  unfold found. rewrite Hf, Ha. simpl. split_and!; [done | |].
  - intros Hfa.
    rewrite (dispatch_alias (mkToken alia args) _ cmd (mkCallback cmd f e p)); simpl.
    + rewrite (dispatch_primary (mkToken cmd args) _ (mkCallback cmd f e p)); [done|].
      simpl. apply lookup_insert_eq.
    + by rewrite lookup_insert_ne.
    + apply lookup_insert_eq.
    + apply lookup_insert_eq.
  - intros cb Hfa.
    rewrite (dispatch_primary (mkToken alia args) _ cb); [done|].
    simpl. by rewrite lookup_insert_ne.
Qed.

(** One turn of the resolving loop that ends normally, on a registry closed
    under aliases: it adds one task when the token resolves and none when it
    does not, and it leaves the registry as it is. *)
Lemma dispatch_count r s s' :
  alias_closed (self s) ->
  dispatch r s = (s', Done tt) ->
  funcs (self s') = funcs (self s) /\
  alias (self s') = alias (self s) /\
  length (tasks (self s')) =
    (length (tasks (self s)) + if resolves (self s) r then 1 else 0)%nat.
Proof.
  intros Hcl Hd. unfold resolves, found.
  destruct (funcs (self s) !! cmd r) as [cb|] eqn:Hf.
  - rewrite (dispatch_primary r s cb Hf), bind_run, pack_run in Hd.
    destruct (negb (expected_args cb =? -1) && _); [done|].
    simpl in Hd. injection Hd as <-. simpl. rewrite length_app. by split_and!.
  - destruct (alias (self s) !! cmd r) as [a|] eqn:Ha.
    + destruct (Hcl _ _ Ha) as [cb Hcb].
      rewrite (dispatch_alias r s a cb Hf Ha Hcb), bind_run, pack_run in Hd.
      destruct (negb (expected_args cb =? -1) && _); [done|].
      simpl in Hd. injection Hd as <-. simpl. rewrite length_app. by split_and!.
    + rewrite (dispatch_unrecognized r s Hf Ha) in Hd.
      injection Hd as <-. simpl. split_and!; [done | done | lia].
Qed.

Lemma resolve_count (l : list Token) s s' :
  alias_closed (self s) ->
  for_each dispatch l s = (s', Done tt) ->
  funcs (self s') = funcs (self s) /\
  alias (self s') = alias (self s) /\
  length (tasks (self s')) =
    (length (tasks (self s)) + length (List.filter (resolves (self s)) l))%nat.
Proof.
  revert s. induction l as [|r l IH]; intros s Hcl Hl; simpl in *.
  - injection Hl as <-. split_and!; [done | done | lia].
  - rewrite bind_run in Hl.
    destruct (dispatch r s) as [s1 [[]|m|m|]] eqn:Hd; try done.
    destruct (dispatch_count r s s1 Hcl Hd) as (Hf1 & Ha1 & Hn1).
    assert (Hcl1 : alias_closed (self s1)).
    { intros k a Hk. rewrite Hf1. rewrite Ha1 in Hk. exact (Hcl k a Hk). }
    destruct (IH s1 Hcl1 Hl) as (Hf & Ha & Hn).
    assert (Hres : forall t, resolves (self s1) t = resolves (self s) t)
      by (intros t; unfold resolves; by rewrite Hf1, Ha1).
    split_and!; [congruence | congruence |].
    rewrite Hn, Hn1. rewrite (List.filter_ext _ _ Hres).
    destruct (resolves (self s) r); simpl; lia.
Qed.

End Aliases.

Section StoredTokens.
Context {World : Type} `{StdSort World}.
Implicit Types (s : State World).

(** X18: [parse] never clears [tokens] or [tasks]. On a registry closed
    under aliases, a [parse] that returns normally has added one task for
    each token it has stored whose name resolves, the tokens stored by
    earlier calls included: every earlier option is packed once more by each
    later [parse]. *)
Lemma X18_one_task_per_stored_token (argv0 : string) (rest : list string) s :
  alias_closed (self s) ->
  (parse argv0 rest s).2 = Done tt ->
  let s' := (parse argv0 rest s).1 in
  length (tasks (self s')) =
    (length (tasks (self s)) + length (List.filter (resolves (self s')) (tokens (self s'))))%nat.
Proof.
  intros Hcl Hdone s'. subst s'. rewrite parse_run in *.
  destruct (for_each dispatch _ _) as [s4 [[]|m|m|]] eqn:Hloop; try done.
  assert (Hcl0 : alias_closed (self (expanded argv0 rest s))).
  { intros k a Hk. simpl in *. destruct (Hcl k a Hk) as [cb Hcb].
    exists cb. by apply map_grows_map_insert. }
  destruct (resolve_count _ _ _ Hcl0 Hloop) as (Hf & Ha & Hn).
  assert (Ht : tokens (self s4) = tokens (self (expanded argv0 rest s))).
  { destruct (resolve_shape (tokens (self (expanded argv0 rest s))) (expanded argv0 rest s))
      as (fs & new & out & o & Hshape & _).
    rewrite Hloop in Hshape. by injection Hshape as -> _. }
  simpl. rewrite std_sort_length, Hn. simpl.
  rewrite Ht.
  assert (Hres : forall t, resolves (self (expanded argv0 rest s)) t =
                 resolves (mkCLI (tokens (self (expanded argv0 rest s))) (alias (self s4))
                                 (funcs (self s4)) (std_sort (tasks (self s4))) true) t).
  { intros t. unfold resolves. simpl. by rewrite Hf, Ha. }
  by rewrite (List.filter_ext _ _ Hres).
Qed.

End StoredTokens.

(** X17 on the command "p" with the alias "print". *)
Lemma X17_alias_resolves_like_primary_witness :
  dispatch (mkToken "print" ["x"]) (add_cmd_alias "p" "print" (say "p") (-1) (-1) fresh).1 =
  dispatch (mkToken "p" ["x"]) (add_cmd_alias "p" "print" (say "p") (-1) (-1) fresh).1.
Proof.
  apply (proj1 (proj2 (X17_alias_resolves_like_primary "p" "print" (say "p") (-1) (-1) ["x"] fresh
                         eq_refl eq_refl eq_refl ltac:(discriminate)))).
  reflexivity.
Defined.

(** X18 on a second [parse] of the same command line: the three tokens of
    the first call are stored with the three of the second, and six tasks
    join the three there were. *)
Lemma X18_one_task_per_stored_token_witness :
  let S := insertion_StdSort in
  let s1 := (parse "prog" ["-a"; "-b"] (registered two_flags)).1 in
  let s2 := (parse "prog" ["-a"; "-b"] s1).1 in
  length (tasks (self s1)) = 3%nat /\
  length (tokens (self s2)) = 6%nat /\
  length (tasks (self s2)) =
    (length (tasks (self s1)) + length (List.filter (resolves (self s2)) (tokens (self s2))))%nat /\
  length (tasks (self s2)) = 9%nat.
Proof.
  intros S s1 s2.
  split; [reflexivity|]. split; [reflexivity|]. split; [|reflexivity].
  apply (@X18_one_task_per_stored_token Log S "prog" ["-a"; "-b"] s1); [|reflexivity].
  intros k a Hk. change (alias (self s1) !! k) with (@lookup _ _ (gmap string string) _ k ∅) in Hk.
  by rewrite lookup_empty in Hk.
Defined.

(** ** The order in which run invokes the deferred actions *)

Section InvocationOrder.
Context {World : Type} `{StdSort World}.
Implicit Types (s : State World) (r : Token) (c : CLI World).

Lemma task_of_ext c c' r :
  funcs c' = funcs c -> alias c' = alias c -> task_of c' r = task_of c r.
Proof. intros Hf Ha. unfold task_of, resolve. by rewrite Hf, Ha. Qed.

Lemma perm_of_eq {A : Type} (l k : list A) : l = k -> l ≡ₚ k.
Proof. by intros ->. Qed.

Lemma omap_task_of_ext c c' (l : list Token) :
  funcs c' = funcs c -> alias c' = alias c -> omap (task_of c') l = omap (task_of c) l.
Proof.
  intros Hf Ha. induction l as [|r l IH]; csimpl; [done|].
  by rewrite (task_of_ext c c' r Hf Ha), IH.
Qed.

(** One turn of the resolving loop that ends normally, on a registry closed
    under aliases: it adds the deferred action of the token, when the name
    of the token stands for a command. *)
Lemma dispatch_task r s s' :
  alias_closed (self s) ->
  dispatch r s = (s', Done tt) ->
  tokens (self s') = tokens (self s) /\
  funcs (self s') = funcs (self s) /\
  alias (self s') = alias (self s) /\
  tasks (self s') = tasks (self s) ++ option_list (task_of (self s) r).
Proof.
  intros Hcl Hd. unfold task_of, resolve.
  destruct (funcs (self s) !! cmd r) as [cb|] eqn:Hf.
  - rewrite (dispatch_primary r s cb Hf), bind_run, pack_run in Hd.
    destruct (negb (expected_args cb =? -1) && _); [done|].
    simpl in Hd. injection Hd as <-. by split_and!.
  - destruct (alias (self s) !! cmd r) as [a|] eqn:Ha; simpl.
    + destruct (Hcl _ _ Ha) as [cb Hcb]. rewrite Hcb. simpl.
      rewrite (dispatch_alias r s a cb Hf Ha Hcb), bind_run, pack_run in Hd.
      destruct (negb (expected_args cb =? -1) && _); [done|].
      simpl in Hd. injection Hd as <-. by split_and!.
    + rewrite (dispatch_unrecognized r s Hf Ha) in Hd.
      injection Hd as <-. simpl. rewrite app_nil_r. by split_and!.
Qed.

Lemma resolve_tasks (l : list Token) s s' :
  alias_closed (self s) ->
  for_each dispatch l s = (s', Done tt) ->
  tokens (self s') = tokens (self s) /\
  funcs (self s') = funcs (self s) /\
  alias (self s') = alias (self s) /\
  tasks (self s') = tasks (self s) ++ omap (task_of (self s)) l.
Proof.
  revert s. induction l as [|r l IH]; intros s Hcl Hl; simpl in *.
  - injection Hl as <-. rewrite app_nil_r. by split_and!.
  - rewrite bind_run in Hl.
    destruct (dispatch r s) as [s1 [[]|m|m|]] eqn:Hd; try done.
    destruct (dispatch_task r s s1 Hcl Hd) as (Ht1 & Hf1 & Ha1 & Hn1).
    assert (Hcl1 : alias_closed (self s1)).
    { intros k a Hk. rewrite Hf1. rewrite Ha1 in Hk. exact (Hcl k a Hk). }
    destruct (IH s1 Hcl1 Hl) as (Ht & Hf & Ha & Hn).
    split_and!; [congruence | congruence | congruence |].
    rewrite Hn, Hn1, <- app_assoc. f_equal.
    rewrite (omap_task_of_ext (self s) (self s1) l Hf1 Ha1).
    by destruct (task_of (self s) r).
Qed.

(** C4: after a [parse] that returned normally, the tasks stand in the
    order of their priorities, highest first, whatever the order of the
    tokens in the input was, and [run] invokes them at the positions 0, 1,
    ... in turn, up to the first action that throws, and does nothing else:
    of two invocations the earlier one is of a task whose priority is at
    least that of the later one, and a task of higher priority is invoked
    before every task of lower priority. On a registry in which every alias
    stands for a command, the tasks are those there were and the deferred
    action of each token whose name stands for a command, with the priority
    that the command was registered with: of two commands that are both in
    the input, the one of higher priority is invoked first. *)
Lemma C4_run_in_priority_order (argv0 : string) (rest : list string) s :
  (parse argv0 rest s).2 = Done tt ->
  let s1 := (parse argv0 rest s).1 in
  let ts := tasks (self s1) in
  let n := length ts in
  let invocations := invoke_seq (seq 0 n) ts (world s1) in
  run s1 = after_invocations s1 invocations.1 /\
  (exists k : nat, invocations.2 = seq 0 k /\ (k <= n)%nat) /\
  ((run s1).2 = Done tt -> invocations.2 = seq 0 n) /\
  (forall (i j : nat) pa pb,
     (i < j)%nat -> ts !! i = Some pa -> ts !! j = Some pb ->
     priority pb <= priority pa) /\
  (forall (i j : nat) pa pb,
     ts !! i = Some pa -> ts !! j = Some pb ->
     priority pb < priority pa -> (i < j)%nat) /\
  (alias_closed (self s) ->
   ts ≡ₚ tasks (self s) ++ omap (task_of (self s1)) (tokens (self s1)) /\
   forall r1 r2 p1 p2,
     r1 ∈ tokens (self s1) -> r2 ∈ tokens (self s1) ->
     task_of (self s1) r1 = Some p1 -> task_of (self s1) r2 = Some p2 ->
     priority p2 < priority p1 ->
     exists i j : nat, (i < j)%nat /\ ts !! i = Some p1 /\ ts !! j = Some p2).
Proof.
  intros Hparse s1 ts n invocations.
  assert (Hsorted : forall (i j : nat) pa pb,
            (i < j)%nat -> ts !! i = Some pa -> ts !! j = Some pb ->
            priority pb <= priority pa).
  { intros i j pa pb Hij Hi Hj. unfold ts, s1 in Hi, Hj.
    destruct (parse_cases argv0 rest s) as [(s4 & m & Hs4 & _)|(s4 & Hs4 & _ & _)];
      rewrite Hs4 in *; [done|]. simpl in *.
    exact (StronglySorted_lookup prio_ge _ i j pa pb (std_sort_sorted _) Hij Hi Hj). }
  assert (Hstrict : forall (i j : nat) pa pb,
            ts !! i = Some pa -> ts !! j = Some pb ->
            priority pb < priority pa -> (i < j)%nat).
  { intros i j pa pb Hi Hj Hlt.
    destruct (lt_eq_lt_dec i j) as [[Hij | ->] | Hji]; [done | |].
    - rewrite Hi in Hj. injection Hj as ->. lia.
    - pose proof (Hsorted j i pb pa Hji Hj Hi). lia. }
  assert (Hp1 : parsed (self s1) = true).
  { unfold s1.
    destruct (parse_cases argv0 rest s) as [(s4 & m & Hs4 & _)|(s4 & Hs4 & _ & _)];
      rewrite Hs4 in *; done. }
  assert (Hrun : run s1 = after_invocations s1 invocations.1) by (by apply run_invokes).
  destruct (invoke_seq_invoked (seq 0 n) ts (world s1)) as (k & Hk & Hle & Hdone).
  rewrite length_seq in Hle, Hdone. rewrite take_seq, Nat.min_l in Hk by done.
  fold invocations in Hk, Hdone.
  split_and!; [done | by exists k | | done | done |].
  - intros Ho. rewrite Hrun in Ho. simpl in Ho. by rewrite Hk, (Hdone Ho).
  - intros Hcl.
    assert (Hperm : ts ≡ₚ tasks (self s) ++ omap (task_of (self s1)) (tokens (self s1))).
    { unfold ts, s1. rewrite parse_run in *.
      destruct (for_each dispatch _ _) as [s4 [[]|m|m|]] eqn:Hloop; try done.
      assert (Hcl0 : alias_closed (self (expanded argv0 rest s))).
      { intros k' a Hk'. simpl in *. destruct (Hcl k' a Hk') as [cb Hcb].
        exists cb. by apply map_grows_map_insert. }
      destruct (resolve_tasks _ _ _ Hcl0 Hloop) as (Ht & Hf & Ha & Hn).
      simpl. etrans; [apply std_sort_perm|]. apply perm_of_eq.
      rewrite Hn, Ht. simpl. f_equal. symmetry.
      by apply omap_task_of_ext. }
    split; [done|].
    intros r1 r2 p1 p2 Hr1 Hr2 Hp1' Hp2' Hlt.
    assert (Hin : forall r p, r ∈ tokens (self s1) -> task_of (self s1) r = Some p -> p ∈ ts).
    { intros r p Hr Hp. rewrite Hperm. apply elem_of_app. right.
      apply list_elem_of_omap. by exists r. }
    destruct (list_elem_of_lookup_1 _ _ (Hin r1 p1 Hr1 Hp1')) as [i Hi].
    destruct (list_elem_of_lookup_1 _ _ (Hin r2 p2 Hr2 Hp2')) as [j Hj].
    exists i, j. split_and!; [|done|done]. by apply (Hstrict i j p1 p2).
Qed.

End InvocationOrder.

(** C4 on the example of the specification: the command of priority 5 comes
    first in the input, the command of priority 10 is invoked first. *)
Lemma C4_run_in_priority_order_witness :
  let S := insertion_StdSort in
  let s0 := registered low_high in
  let s1 := (parse "prog" ["-lowcmd"; "-highcmd"] s0).1 in
  let ts := tasks (self s1) in
  (parse "prog" ["-lowcmd"; "-highcmd"] s0).2 = Done tt /\
  map priority ts = [10; 5; -1] /\
  world (run s1).1 = ["high()"; "low()"] /\
  run s1 = after_invocations s1 (invoke_seq (seq 0 3) ts (world s1)).1 /\
  (invoke_seq (seq 0 3) ts (world s1)).2 = [0; 1; 2]%nat /\
  exists i j : nat,
    (i < j)%nat /\
    ts !! i = Some (mkPacked (say "high") [] 10) /\
    ts !! j = Some (mkPacked (say "low") [] 5).
Proof.
  intros S s0 s1 ts.
  pose proof (@C4_run_in_priority_order Log S "prog" ["-lowcmd"; "-highcmd"] s0 eq_refl)
    as (Hrun & _ & Hall & _ & _ & Hcmd).
  split; [reflexivity|]. split; [reflexivity|]. split; [reflexivity|].
  split; [exact Hrun|]. split; [exact (Hall eq_refl)|].
  assert (Hcl : alias_closed (self s0)).
  { intros k a Hk.
    change (alias (self s0) !! k) with (@lookup _ _ (gmap string string) _ k ∅) in Hk.
    by rewrite lookup_empty in Hk. }
  apply (proj2 (Hcmd Hcl) (mkToken "highcmd" []) (mkToken "lowcmd" []));
    [ change (mkToken "highcmd" [] ∈
              [mkToken "prog" []; mkToken "lowcmd" []; mkToken "highcmd" []]);
      apply list_elem_of_In; simpl; auto
    | change (mkToken "lowcmd" [] ∈
              [mkToken "prog" []; mkToken "lowcmd" []; mkToken "highcmd" []]);
      apply list_elem_of_In; simpl; auto
    | reflexivity | reflexivity | simpl; lia ].
Defined.
